(** * FastAPI / Redis Queue background job demo: a shallow embedding

    The development follows the layout of the repository:
    - [tasks.py]  : the three job functions (prime search, Fibonacci,
                    weather fetch);
    - the job record store, the queue and the executor that [main.py] and
      [worker.py] drive through the [rq] package;
    - [main.py]   : the HTTP handlers, in particular [get_task_status].

    Python integers are [Z]; Python floats are IEEE-754 binary64 values of
    the Standard Library's [spec_float]; dictionaries keep insertion order
    and are association lists; exceptions are values threaded through an
    outcome monad. *)

From Stdlib Require Import ZArith List String Ascii Bool Lia.
From Stdlib Require Import SpecFloat.
From Equations Require Import Equations.
From stdpp Require Import gmap strings list pretty sorting.
Import ListNotations.

Local Open Scope string_scope.
Local Open Scope list_scope.
Local Open Scope Z_scope.

(** ** Python values *)

#[local] Unset Elimination Schemes.
Inductive value : Type :=
| VNone
| VBool (b : bool)
| VInt (z : Z)
| VFloat (x : spec_float)
| VStr (s : string)
| VList (l : list value)
| VDict (d : list (string * value)).

#[local] Set Elimination Schemes.

(** [Dict[str, Any]]: an insertion-ordered association list. *)
Abbreviation Dict := (list (string * value)).

Fixpoint dict_get (d : Dict) (k : string) : option value :=
  match d with
  | [] => None
  | (k', v) :: d' => if String.eqb k' k then Some v else dict_get d' k
  end.

(** ** Exceptions and outcomes *)

Record Exception := mkException { exc_type : string; exc_msg : string }.

(** [str(e)] *)
Definition str (e : Exception) : string := exc_msg e.

Definition OverflowError (m : string) := mkException "OverflowError" m.
Definition ValueError (m : string) := mkException "ValueError" m.
Definition KeyError (m : string) := mkException "KeyError" m.

Inductive Outcome (A : Type) : Type :=
| Return (a : A)
| Raise (e : Exception).
Arguments Return {A} a.
Arguments Raise {A} e.

#[global] Instance outcome_ret : MRet Outcome := @Return.
#[global] Instance outcome_bind : MBind Outcome := fun A B k m =>
  match m with
  | Return a => k a
  | Raise e => Raise e
  end.

(** ** [range] *)

(** [range(start, stop)] *)
Definition range (start stop : Z) : list Z :=
  map (fun i => start + Z.of_nat i) (seq 0 (Z.to_nat (stop - start))).

(** [range(start, stop, step)] for a positive step. *)
Definition range_step (start stop step : Z) : list Z :=
  map (fun i => start + step * Z.of_nat i)
      (seq 0 (Z.to_nat ((stop - start + step - 1) / step))).

(** ** Floats: [float(n)], [math.sqrt] and [int(x)] *)

Module Float.

Definition prec : Z := 53.
Definition emax : Z := 1024.

(** Conversion of a Python integer to a double: correctly rounded, and an
    [OverflowError] when the integer is beyond the range of doubles. *)
Definition of_int (n : Z) : Outcome spec_float :=
  match binary_normalize prec emax n 0 false with
  | S754_infinity _ => Raise (OverflowError "int too large to convert to float")
  | x => Return x
  end.

(** [int(x)]: truncation towards zero. *)
Definition to_int (x : spec_float) : Outcome Z :=
  match x with
  | S754_zero _ => Return 0
  | S754_finite s m e => Return (cond_Zopp s (Z.shiftl (Zpos m) e))
  | S754_infinity _ => Raise (OverflowError "cannot convert float infinity to integer")
  | S754_nan => Raise (ValueError "cannot convert float NaN to integer")
  end.

(** [math.sqrt(n)] on an integer argument. *)
Definition math_sqrt (n : Z) : Outcome spec_float :=
  x ← of_int n;
  match x with
  | S754_finite true _ _ => Raise (ValueError "math domain error")
  | _ => Return (SFsqrt prec emax x)
  end.

End Float.

(** ** tasks.py *)

Module Tasks.

(** The [for i in range(3, int(math.sqrt(n)) + 1, 2)] loop of [is_prime],
    leaving with [False] at the first divisor. *)
Fixpoint is_prime_loop (n : Z) (candidates : list Z) : bool :=
  match candidates with
  | [] => true
  | i :: rest => if n mod i =? 0 then false else is_prime_loop n rest
  end.

Definition is_prime (n : Z) : Outcome bool :=
  if n <? 2 then Return false
  else if n =? 2 then Return true
  else if n mod 2 =? 0 then Return false
  else
    r ← Float.math_sqrt n;
    k ← Float.to_int r;
    Return (is_prime_loop n (range_step 3 (k + 1) 2)).

(** The [for num in range(start, end + 1)] loop, appending to [primes]. *)
Fixpoint collect_primes (primes : list Z) (nums : list Z) : Outcome (list Z) :=
  match nums with
  | [] => Return primes
  | num :: rest =>
      b ← is_prime num;
      collect_primes (if (b : bool) then primes ++ [num] else primes) rest
  end.

(** [find_primes_in_range(start, end)]; [elapsed] is the value of
    [round(execution_time, 2)] read off the clock. *)
Definition find_primes_in_range (elapsed : spec_float) (start end_ : Z) : Outcome Dict :=
  primes ← collect_primes [] (range start (end_ + 1));
  Return [ ("primes", VList (map VInt primes));
           ("count", VInt (Z.of_nat (length primes)));
           ("range", VStr (pretty start +:+ "-" +:+ pretty end_));
           ("execution_time", VFloat elapsed) ].

Equations? fib_recursive (num : Z) : Z by wf (Z.to_nat num) lt :=
  fib_recursive num with Z_le_gt_dec num 1 => {
    | left _ := num;
    | right _ := fib_recursive (num - 1) + fib_recursive (num - 2) }.
Proof. all: lia. Qed.

(** The body of the [for _ in range(2, num + 1)] loop: [a, b = b, a + b]. *)
Definition fib_step (ab : Z * Z) (_ : Z) : Z * Z := (snd ab, fst ab + snd ab).

Definition fib_iterative (num : Z) : Z :=
  if num <=? 1 then num
  else snd (fold_left fib_step (range 2 (num + 1)) (0, 1)).

Definition calculate_fibonacci (elapsed : spec_float) (n : Z) : Outcome Dict :=
  let result := if n <=? 30 then fib_iterative n else fib_recursive n in
  Return [ ("fibonacci_number", VInt result);
           ("position", VInt n);
           ("execution_time", VFloat elapsed) ].

(** *** The weather task *)

(** [os.environ] *)
Abbreviation Environ := (gmap string string).

Definition getenv (environ : Environ) (name : string) : option string :=
  environ !! name.

(** One [session.get(base_url, params=params)] and what comes back:
    the status and the outcome of [response.json()]. *)
Record Request := mkRequest { url : string; params : list (string * string) }.
Record Response := mkResponse { status : Z; json : Outcome value }.

(** The remote service: a request is answered, or the call raises. *)
Definition Network := Request -> Outcome Response.

Definition TypeError (m : string) := mkException "TypeError" m.
Definition IndexError (m : string) := mkException "IndexError" m.

Definition type_name (v : value) : string :=
  match v with
  | VNone => "NoneType"
  | VBool _ => "bool"
  | VInt _ => "int"
  | VFloat _ => "float"
  | VStr _ => "str"
  | VList _ => "list"
  | VDict _ => "dict"
  end.

(** [v[key]] with a string key. *)
Definition subscript (v : value) (key : string) : Outcome value :=
  match v with
  | VDict d =>
      match dict_get d key with
      | Some x => Return x
      | None => Raise (KeyError ("'" +:+ key +:+ "'"))
      end
  | VList _ => Raise (TypeError "list indices must be integers or slices, not str")
  | VStr _ => Raise (TypeError "string indices must be integers, not 'str'")
  | _ => Raise (TypeError ("'" +:+ type_name v +:+ "' object is not subscriptable"))
  end.

(** [v[0]] *)
Definition subscript0 (v : value) : Outcome value :=
  match v with
  | VList (x :: _) => Return x
  | VList [] => Raise (IndexError "list index out of range")
  | VStr (String c _) => Return (VStr (String c ""))
  | VStr "" => Raise (IndexError "string index out of range")
  | VDict _ => Raise (KeyError "0")
  | _ => Raise (TypeError ("'" +:+ type_name v +:+ "' object is not subscriptable"))
  end.

(** [v[k1][k2]] *)
Definition subscript2 (v : value) (k1 k2 : string) : Outcome value :=
  inner ← subscript v k1;
  subscript inner k2.

Definition city_weather (data : value) : Outcome Dict :=
  name ← subscript data "name";
  country ← subscript2 data "sys" "country";
  temp ← subscript2 data "main" "temp";
  feels_like ← subscript2 data "main" "feels_like";
  humidity ← subscript2 data "main" "humidity";
  weather ← subscript data "weather";
  weather0 ← subscript0 weather;
  description ← subscript weather0 "description";
  wind_speed ← subscript2 data "wind" "speed";
  Return [ ("city", name); ("country", country); ("temperature", temp);
           ("feels_like", feels_like); ("humidity", humidity);
           ("description", description); ("wind_speed", wind_speed) ].

Definition cities : list string :=
  [ "London,UK"; "New York,US"; "Tokyo,JP"; "Paris,FR"; "Sydney,AU";
    "Mumbai,IN"; "São Paulo,BR"; "Cairo,EG"; "Moscow,RU"; "Cape Town,ZA";
    "Toronto,CA"; "Berlin,DE"; "Bangkok,TH"; "Mexico City,MX";
    "Buenos Aires,AR" ].

Definition base_url : string := "http://api.openweathermap.org/data/2.5/weather".

(** The local state of the [for city in cities] loop, together with the
    requests sent so far. *)
Record WeatherLoop := mkWeatherLoop {
  cities_data : list Dict;
  failed_cities : list string;
  sent : list Request
}.

(** One iteration of the loop: the body of [try], and the [except]
    clause that records the city as failed. *)
Definition weather_iteration (network : Network) (api_key : string)
    (st : WeatherLoop) (city : string) : WeatherLoop :=
  let request :=
    mkRequest base_url [("q", city); ("appid", api_key); ("units", "metric")] in
  let sent' := sent st ++ [request] in
  let attempt : Outcome (list Dict * list string) :=
    response ← network request;
    if status response =? 200 then
      data ← json response;
      w ← city_weather data;
      Return (cities_data st ++ [w], failed_cities st)
    else
      Return (cities_data st,
              failed_cities st ++
                [city +:+ " (HTTP " +:+ pretty (status response) +:+ ")"])
  in
  match attempt with
  | Return (data, failed) => mkWeatherLoop data failed sent'
  | Raise e =>
      mkWeatherLoop (cities_data st)
                    (failed_cities st ++ [city +:+ " (Error: " +:+ str e +:+ ")"])
                    sent'
  end.

(** Python truthiness of [os.getenv(...)]: [None] and the empty string
    are falsy. *)
Definition truthy_str (s : option string) : bool :=
  match s with
  | None => false
  | Some s => negb (String.eqb s "")
  end.

(** [fetch_weather_for_cities()]: the record returned and the HTTP
    requests sent, in order. *)
Definition fetch_weather_for_cities (environ : Environ) (network : Network)
    (elapsed : spec_float) : Dict * list Request :=
  let api_key := getenv environ "OPENWEATHER_API_KEY" in
  if negb (truthy_str api_key) then
    ([ ("error", VStr "OpenWeatherMap API key not found. Set OPENWEATHER_API_KEY environment variable.");
       ("cities_data", VList []);
       ("execution_time", VInt 0) ], [])
  else
    let key := default "" api_key in
    let final := fold_left (weather_iteration network key) cities
                           (mkWeatherLoop [] [] []) in
    ([ ("cities_data", VList (map VDict (cities_data final)));
       ("successful_requests", VInt (Z.of_nat (length (cities_data final))));
       ("failed_requests", VList (map VStr (failed_cities final)));
       ("total_cities_attempted", VInt (Z.of_nat (length cities)));
       ("execution_time", VFloat elapsed) ], sent final).

(** [fetch_weather_for_cities_sync()] is [asyncio.run] of the coroutine. *)
Definition fetch_weather_for_cities_sync (environ : Environ) (network : Network)
    (elapsed : spec_float) : Dict * list Request :=
  fetch_weather_for_cities environ network elapsed.

End Tasks.

(** ** The job record store, the queue and the executor

    [main.py] and [worker.py] reach these through the [rq] package
    ([queue.enqueue], [Job.fetch], [worker.work]), which is not part of the
    sources; they are modelled from sections 3 and 4 of the specification. *)

Module Core.

(** Modelled from the spec: the states of a job (section 3, [state]);
    the sources only name them through [rq]'s job attributes. *)
Inductive JobState := queued | running | succeeded | failed.

#[global] Instance JobState_eq_dec : EqDecision JobState.
Proof. solve_decision. Defined.

(** Modelled from the spec: the error kinds of section 7 that end up on
    a job record. *)
Inductive ErrorKind := UnknownFunction | ExecutionError.

(** Modelled from the spec: [error], a structured description (kind and
    message) of the failure. *)
Record JobError := mkJobError { kind : ErrorKind; message : string }.

(** Modelled from the spec: the job record of section 3, without its
    timestamps. The job functions of [tasks.py] return [Dict[str, Any]],
    which is also the type of the response field that carries [result]. *)
Record JobRecord := mkJobRecord {
  state : JobState;
  function_ref : string;
  arguments : list value;
  result : option Dict;
  error : option JobError
}.

(** Modelled from the spec: the store owns the records, the queue holds
    job ids only (section 3, ownership). *)
Record Backend := mkBackend {
  store : gmap string JobRecord;
  queue : list string
}.

(** The backend before anything was submitted. *)
Definition empty : Backend := mkBackend ∅ [].

(** Modelled from the spec: [Store.create] (section 4.1); the fresh id it
    allocates is an input. *)
Definition Store_create (id function_ref : string) (arguments : list value)
    (b : Backend) : Backend :=
  mkBackend (<[id := mkJobRecord queued function_ref arguments None None]> (store b))
            (queue b).

(** Modelled from the spec: [Store.get] (section 4.1). *)
Definition Store_get (id : string) (b : Backend) : option JobRecord :=
  store b !! id.

(** Modelled from the spec: [Store.update] (section 4.1), one atomic
    transition. It is guarded by the state the caller expects: when the
    record is missing or another consumer has moved it on, nothing is
    written. *)
Definition Store_update (id : string) (expected : JobState)
    (mutation : JobRecord -> JobRecord) (b : Backend) : Backend :=
  match store b !! id with
  | Some r =>
      if decide (state r = expected)
      then mkBackend (<[id := mutation r]> (store b)) (queue b)
      else b
  | None => b
  end.

(** Modelled from the spec: [Queue.push] (section 4.2). *)
Definition Queue_push (id : string) (b : Backend) : Backend :=
  mkBackend (store b) (queue b ++ [id]).

(** Modelled from the spec: [Queue.pop] (section 4.2), oldest first;
    [None] when the queue is empty. *)
Definition Queue_pop (b : Backend) : option string * Backend :=
  match queue b with
  | [] => (None, b)
  | id :: rest => (Some id, mkBackend (store b) rest)
  end.

(** Modelled from the spec: [Dispatcher.submit] (section 4.4):
    [Store.create], then [Queue.push], returning the id. *)
Definition submit (id function_ref : string) (arguments : list value)
    (b : Backend) : string * Backend :=
  (id, Queue_push id (Store_create id function_ref arguments b)).

(** What a job function can see of the outside world when it runs. *)
Record World := mkWorld {
  elapsed : spec_float;
  environ : Tasks.Environ;
  network : Tasks.Network
}.

(** Modelled from the spec: the job function registry (section 6), from
    [function_ref] to an invocable that returns a result or raises. *)
Definition JobFunction := World -> list value -> Outcome Dict.
Abbreviation Registry := (gmap string JobFunction).

(** Modelled from the spec: the mutation of step 2, [queued] to
    [running]. *)
Definition mark_running (r : JobRecord) : JobRecord :=
  mkJobRecord running (function_ref r) (arguments r) (result r) (error r).

(** Modelled from the spec: the mutation of step 5 on normal return,
    [running] to [succeeded] with [result] set. *)
Definition mark_succeeded (v : Dict) (r : JobRecord) : JobRecord :=
  mkJobRecord succeeded (function_ref r) (arguments r) (Some v) None.

(** Modelled from the spec: the mutation of steps 3 and 5 on failure,
    [running] to [failed] with [error] set. *)
Definition mark_failed (e : JobError) (r : JobRecord) : JobRecord :=
  mkJobRecord failed (function_ref r) (arguments r) None (Some e).

(** Modelled from the spec: steps 1 and 2 of the executor (section 4.3):
    pop an id, drop it when the record is missing or no longer [queued],
    otherwise move the job to [running]. The id returned is the one the
    executor now holds. *)
Definition executor_start (b : Backend) : option string * Backend :=
  match Queue_pop b with
  | (None, b') => (None, b')
  | (Some id, b') =>
      match Store_get id b' with
      | Some r =>
          if decide (state r = queued)
          then (Some id, Store_update id queued mark_running b')
          else (None, b')
      | None => (None, b')
      end
  end.

(** Modelled from the spec: steps 3 to 5 of the executor (section 4.3) for
    the job it holds: resolve the function, invoke it, catch whatever it
    raises, and write the terminal record. *)
Definition executor_finish (registry : Registry) (w : World) (id : string)
    (b : Backend) : Backend :=
  match Store_get id b with
  | Some r =>
      match registry !! function_ref r with
      | None =>
          Store_update id running
            (mark_failed (mkJobError UnknownFunction (function_ref r))) b
      | Some f =>
          match f w (arguments r) with
          | Return v => Store_update id running (mark_succeeded v) b
          | Raise e =>
              Store_update id running
                (mark_failed (mkJobError ExecutionError (str e))) b
          end
      end
  | None => b
  end.

End Core.

(** ** worker.py: the job functions available to the worker *)

Module Worker.

Import Core.

(** How the worker calls a job function with the stored arguments. The
    argument lists are those [main.py] enqueues; on any other list the call
    is rejected with a [TypeError]. *)
Definition call_find_primes_in_range : JobFunction := fun w args =>
  match args with
  | [VInt start; VInt end_] => Tasks.find_primes_in_range (elapsed w) start end_
  | _ => Raise (Tasks.TypeError "find_primes_in_range() got unexpected arguments")
  end.

Definition call_calculate_fibonacci : JobFunction := fun w args =>
  match args with
  | [VInt n] => Tasks.calculate_fibonacci (elapsed w) n
  | _ => Raise (Tasks.TypeError "calculate_fibonacci() got unexpected arguments")
  end.

Definition call_fetch_weather_for_cities_sync : JobFunction := fun w args =>
  match args with
  | [] => Return (fst (Tasks.fetch_weather_for_cities_sync (environ w) (network w) (elapsed w)))
  | _ => Raise (Tasks.TypeError "fetch_weather_for_cities_sync() got unexpected arguments")
  end.

(** The three functions imported from [tasks], under the names the queue
    stores for them. *)
Definition registry : Registry :=
  <["tasks.find_primes_in_range" := call_find_primes_in_range]>
  (<["tasks.calculate_fibonacci" := call_calculate_fibonacci]>
  (<["tasks.fetch_weather_for_cities_sync" := call_fetch_weather_for_cities_sync]> ∅)).

End Worker.

(** ** The [rq] job object as [main.py] reads it *)

Module Rq.

(** The attributes of [rq.job.Job] that [get_task_status] reads. *)
Record Job := mkJob {
  id : string;
  is_finished : bool;
  is_failed : bool;
  is_started : bool;
  is_queued : bool;
  result : option Dict;
  exc_info : option string
}.

Definition NoSuchJobError (m : string) := mkException "NoSuchJobError" m.

Definition kind_name (k : Core.ErrorKind) : string :=
  match k with
  | Core.UnknownFunction => "UnknownFunction"
  | Core.ExecutionError => "ExecutionError"
  end.

(** Modelled from the spec: the stored error (kind and message) as the
    text that [job.exc_info] holds. *)
Definition describe (e : Core.JobError) : string :=
  kind_name (Core.kind e) +:+ ": " +:+ Core.message e.

(** Modelled from the spec: a stored record seen through the job
    attributes; each flag tells one state. *)
Definition of_record (id : string) (r : Core.JobRecord) : Job :=
  mkJob id
        (bool_decide (Core.state r = Core.succeeded))
        (bool_decide (Core.state r = Core.failed))
        (bool_decide (Core.state r = Core.running))
        (bool_decide (Core.state r = Core.queued))
        (Core.result r)
        (describe <$> Core.error r).

(** Modelled from the spec: [Job.fetch] is [Store.get]; its [NotFound] is
    the exception whose text [main.py] looks for. The backend is returned
    unchanged. *)
Definition Job_fetch (task_id : string) (b : Core.Backend)
    : Outcome Job * Core.Backend :=
  match Core.Store_get task_id b with
  | Some r => (Return (of_record task_id r), b)
  | None => (Raise (NoSuchJobError ("No such job: rq:job:" +:+ task_id)), b)
  end.

(** Modelled from the spec: [queue.enqueue(f, *args)] is
    [Dispatcher.submit]; [id] is the fresh identifier drawn for the job. *)
Definition Queue_enqueue (id function_ref : string) (args : list value)
    (b : Core.Backend) : Outcome Job * Core.Backend :=
  let '(id', b') := Core.submit id function_ref args b in
  (Return (of_record id' (Core.mkJobRecord Core.queued function_ref args None None)), b').

End Rq.

(** ** main.py *)

(** [needle in haystack] on strings. *)
Fixpoint contains (needle haystack : string) : bool :=
  String.prefix needle haystack ||
  match haystack with
  | EmptyString => false
  | String _ rest => contains needle rest
  end.

Module PrimeRequest.
Record t := mk { start : Z; end_ : Z }.
End PrimeRequest.

Module FibonacciRequest.
Record t := mk { n : Z }.
End FibonacciRequest.

Module TaskResponse.
Record t := mk { task_id : string; status : string; message : string }.
End TaskResponse.

Module TaskStatusResponse.
Record t := mk {
  task_id : string;
  status : string;
  result : option Dict;
  error : option string
}.
End TaskStatusResponse.

Record HTTPException := mkHTTPException { status_code : Z; detail : string }.

Module Main.

(** A request handler runs against the backend and either returns its
    response model or raises an [HTTPException]. *)
Definition Handler (A : Type) : Type :=
  Core.Backend -> (HTTPException + A) * Core.Backend.

(** The three [POST] handlers share their shape:
    [try: job = queue.enqueue(...); return TaskResponse(...)]
    [except Exception as e: raise HTTPException(500, ...)]. *)
Definition enqueue_task (uuid function_ref : string) (args : list value)
    (message : string) : Handler TaskResponse.t := fun b =>
  match Rq.Queue_enqueue uuid function_ref args b with
  | (Return job, b') =>
      (inr (TaskResponse.mk (Rq.id job) "enqueued" message), b')
  | (Raise e, b') =>
      (inl (mkHTTPException 500 ("Failed to enqueue task: " +:+ str e)), b')
  end.

Definition enqueue_prime_task (uuid : string) (request : PrimeRequest.t)
    : Handler TaskResponse.t :=
  enqueue_task uuid "tasks.find_primes_in_range"
    [VInt (PrimeRequest.start request); VInt (PrimeRequest.end_ request)]
    ("Prime generation task enqueued for range "
       +:+ pretty (PrimeRequest.start request) +:+ "-"
       +:+ pretty (PrimeRequest.end_ request)).

Definition enqueue_fibonacci_task (uuid : string) (request : FibonacciRequest.t)
    : Handler TaskResponse.t :=
  enqueue_task uuid "tasks.calculate_fibonacci"
    [VInt (FibonacciRequest.n request)]
    ("Fibonacci calculation task enqueued for n="
       +:+ pretty (FibonacciRequest.n request)).

Definition enqueue_weather_task (uuid : string) : Handler TaskResponse.t :=
  enqueue_task uuid "tasks.fetch_weather_for_cities_sync" []
    "Weather data fetching task enqueued".

(** [str(job.exc_info) if job.exc_info else "Unknown error"]: [None] and
    the empty string are falsy. *)
Definition error_text (exc_info : option string) : string :=
  match exc_info with
  | Some s => if String.eqb s "" then "Unknown error" else s
  | None => "Unknown error"
  end.

(** The [if job.is_finished ... elif ... else] chain of
    [get_task_status]. *)
Definition project (task_id : string) (job : Rq.Job) : TaskStatusResponse.t :=
  if Rq.is_finished job then
    TaskStatusResponse.mk task_id "completed" (Rq.result job) None
  else if Rq.is_failed job then
    TaskStatusResponse.mk task_id "failed" None (Some (error_text (Rq.exc_info job)))
  else if Rq.is_started job then
    TaskStatusResponse.mk task_id "in_progress" None None
  else if Rq.is_queued job then
    TaskStatusResponse.mk task_id "pending" None None
  else
    TaskStatusResponse.mk task_id "unknown" None None.

Definition get_task_status (task_id : string) : Handler TaskStatusResponse.t :=
  fun b =>
    match Rq.Job_fetch task_id b with
    | (Return job, b') => (inr (project task_id job), b')
    | (Raise e, b') =>
        if contains "No such job" (str e)
        then (inl (mkHTTPException 404 "Task not found"), b')
        else (inl (mkHTTPException 500 ("Failed to get task status: " +:+ str e)), b')
    end.

End Main.

(** ** Runs of the whole system *)

Module System.

(** What can happen, one atomic step at a time: a client posts a task (the
    queue draws [uuid] for it), an executor picks up the next job, an
    executor completes the job it holds, a client polls. *)
Inductive Event :=
| PostPrimes (uuid : string) (request : PrimeRequest.t)
| PostFibonacci (uuid : string) (request : FibonacciRequest.t)
| PostWeather (uuid : string)
| ExecutorStart
| ExecutorFinish (id : string) (w : Core.World)
| GetStatus (task_id : string).

Definition step (registry : Core.Registry) (b : Core.Backend) (e : Event)
    : Core.Backend :=
  match e with
  | PostPrimes uuid request => snd (Main.enqueue_prime_task uuid request b)
  | PostFibonacci uuid request => snd (Main.enqueue_fibonacci_task uuid request b)
  | PostWeather uuid => snd (Main.enqueue_weather_task uuid b)
  | ExecutorStart => snd (Core.executor_start b)
  | ExecutorFinish id w => Core.executor_finish registry w id b
  | GetStatus task_id => snd (Main.get_task_status task_id b)
  end.

Definition run (registry : Core.Registry) (b : Core.Backend) (trace : list Event)
    : Core.Backend :=
  fold_left (step registry) trace b.

(** The ids drawn for the jobs posted along a trace. *)
Fixpoint posted (trace : list Event) : list string :=
  match trace with
  | [] => []
  | PostPrimes uuid _ :: rest => uuid :: posted rest
  | PostFibonacci uuid _ :: rest => uuid :: posted rest
  | PostWeather uuid :: rest => uuid :: posted rest
  | _ :: rest => posted rest
  end.

(** The statuses a client sees for [task_id] when it polls along a trace
    (polls answered with an [HTTPException] show no status). *)
Fixpoint observed (registry : Core.Registry) (task_id : string)
    (b : Core.Backend) (trace : list Event) : list string :=
  match trace with
  | [] => []
  | e :: rest =>
      let later := observed registry task_id (step registry b e) rest in
      match e with
      | GetStatus id' =>
          if decide (id' = task_id) then
            match fst (Main.get_task_status task_id b) with
            | inr response => TaskStatusResponse.status response :: later
            | inl _ => later
            end
          else later
      | _ => later
      end
  end.

(** [obs] can be read off [path] from left to right, seeing a state any
    number of times and missing any of them. *)
Inductive coarsened {A : Type} : list A -> list A -> Prop :=
| coarsened_nil path : coarsened [] path
| coarsened_see x obs path :
    coarsened obs (x :: path) -> coarsened (x :: obs) (x :: path)
| coarsened_pass x obs path :
    coarsened obs path -> coarsened obs (x :: path).


End System.

(** ** main.py: the status handler over any [Job.fetch] *)

Module MainWith.

(** [get_task_status], with [Job.fetch] as a parameter. *)
Definition get_task_status_with
    (fetch : string -> Core.Backend -> Outcome Rq.Job * Core.Backend)
    (task_id : string) : Main.Handler TaskStatusResponse.t :=
  fun b =>
    match fetch task_id b with
    | (Return job, b') => (inr (Main.project task_id job), b')
    | (Raise e, b') =>
        if contains "No such job" (str e)
        then (inl (mkHTTPException 404 "Task not found"), b')
        else (inl (mkHTTPException 500 ("Failed to get task status: " +:+ str e)), b')
    end.

End MainWith.

(** ** test_api.py: the parts of [APITester] that do not print *)

Module ApiTester.

(** What [requests.get] returns: the status code and the outcome of
    [response.json()]. *)
Record Answer := mkAnswer { status_code : Z; json : Outcome value }.

Definition AttributeError (m : string) := mkException "AttributeError" m.

(** [data.get(key)] on a decoded body: only objects have the method. *)
Definition get (data : value) (key : string) : Outcome value :=
  match data with
  | VDict d => Return (default VNone (dict_get d key))
  | _ => Raise (AttributeError ("'" +:+ Tasks.type_name data +:+ "' object has no attribute 'get'"))
  end.

(** [v in ['completed', 'failed']] *)
Definition in_completed_failed (v : value) : bool :=
  match v with
  | VStr s => String.eqb s "completed" || String.eqb s "failed"
  | _ => false
  end.

(** The body of the [try] in one round of [wait_for_task_completion]:
    the data to return, if this round ends the wait. *)
Definition wait_round (poll : Outcome Answer) : Outcome (option value) :=
  response ← poll;
  if status_code response =? 200 then
    data ← json response;
    st ← get data "status";
    Return (if in_completed_failed st then Some data else None)
  else Return None.

(** [wait_for_task_completion]; [polls] holds, in order, what each request
    made before the timeout is answered with. The result is [None] when an
    exception is caught and when the time is up. *)
Fixpoint wait_for_task_completion (polls : list (Outcome Answer)) : option value :=
  match polls with
  | [] => None
  | poll :: rest =>
      match wait_round poll with
      | Raise _ => None
      | Return (Some data) => Some data
      | Return None => wait_for_task_completion rest
      end
  end.

(** The counters and the list that [record_test] keeps. *)
Record Tester := mkTester {
  tests_passed : Z;
  tests_failed : Z;
  test_results : list (string * bool)
}.

(** [__init__] *)
Definition init : Tester := mkTester 0 0 [].

Definition record_test (t : Tester) (test_name : string) (passed : bool) : Tester :=
  if passed
  then mkTester (tests_passed t + 1) (tests_failed t) (test_results t ++ [(test_name, passed)])
  else mkTester (tests_passed t) (tests_failed t + 1) (test_results t ++ [(test_name, passed)]).

(** The value [print_summary] returns. *)
Definition print_summary (t : Tester) : bool := tests_failed t =? 0.

End ApiTester.

(** The body of [GET /tasks/{task_id}], declared with
    [response_model=TaskStatusResponse]: every field of the model, [None] as
    [null]. *)
Definition status_body (r : TaskStatusResponse.t) : value :=
  VDict [ ("task_id", VStr (TaskStatusResponse.task_id r));
          ("status", VStr (TaskStatusResponse.status r));
          ("result", from_option VDict VNone (TaskStatusResponse.result r));
          ("error", from_option VStr VNone (TaskStatusResponse.error r)) ].

(** A poll of [GET /tasks/task_id] that finds [job]. *)
Definition poll_of (task_id : string) (job : Rq.Job) : Outcome ApiTester.Answer :=
  Return (ApiTester.mkAnswer 200 (Return (status_body (Main.project task_id job)))).

(** * Specifications *)

(** ** Of the status response *)

Section ResponseVocabulary.

Import TaskStatusResponse.


(** The four states of the specification, as the front end names them. *)
Definition four_states : list string :=
  ["pending"; "in_progress"; "completed"; "failed"].


(** A job that is none of finished, failed, started or queued. *)
Definition stopped_job : Rq.Job :=
  Rq.mkJob "job-2" false false false false None None.

End ResponseVocabulary.

(** ** Of the system and its runs *)

Section SystemVocabulary.

Import Core System.


(** What a successful post must have done, for the handler [post] called
    with the drawn id [uuid]. *)
Definition enqueued (post : Main.Handler TaskResponse.t) (uuid function_ref : string)
    (args : list value) (message : string) (b : Backend) : Prop :=
  let b' := snd (post b) in
  fst (post b) = inr (TaskResponse.mk uuid "enqueued" message) /\
  store b' !! uuid = Some (mkJobRecord queued function_ref args None None) /\
  (forall id, id <> uuid -> store b' !! id = store b !! id) /\
  queue b' = queue b ++ [uuid] /\
  Main.get_task_status uuid b' =
    (inr (TaskStatusResponse.mk uuid "pending" None None), b').

(** The id an event posts, if it is a post. *)
Definition posts (e : System.Event) : option string :=
  match e with
  | System.PostPrimes uuid _ | System.PostFibonacci uuid _
  | System.PostWeather uuid => Some uuid
  | _ => None
  end.

(** How the record stored under an id can change in one step. *)
Inductive evolves : option JobRecord -> option JobRecord -> Prop :=
| evolves_same o : evolves o o
| evolves_start r :
    state r = queued -> evolves (Some r) (Some (mark_running r))
| evolves_succeed r v :
    state r = running -> evolves (Some r) (Some (mark_succeeded v r))
| evolves_fail r e :
    state r = running -> evolves (Some r) (Some (mark_failed e r)).

(** The two paths of a job, in the words of the front end. *)
Definition completed_path : list string := ["pending"; "in_progress"; "completed"].



(** A world with no environment variable set and no network. *)
Definition quiet_world : World :=
  mkWorld (S754_zero false) ∅ (fun _ => Raise (mkException "ClientError" "offline")).

(** The scenario of the specification: a registered function that raises
    an error with message "boom", held by an executor. *)
Definition boom : JobFunction := fun _ _ => Raise (mkException "RuntimeError" "boom").

(** A backend where an executor holds such a job, another one waiting. *)
Definition boom_running : Backend :=
  mkBackend {[ "job-1" := mkJobRecord running "boom" [] None None ]} ["job-2"].

(** The request body [{"start": 1, "end": 10}]. *)
Definition primes_1_10 : PrimeRequest.t := PrimeRequest.mk 1 10.

(** A client posts a prime search and polls between the steps of the
    executor. *)
Definition polled_run : list Event :=
  [ GetStatus "job-a"; PostPrimes "job-a" primes_1_10; GetStatus "job-a";
    PostWeather "job-b"; ExecutorStart; GetStatus "job-a"; GetStatus "job-a";
    ExecutorFinish "job-a" quiet_world; GetStatus "job-a";
    ExecutorStart; ExecutorFinish "job-b" quiet_world; GetStatus "job-b" ].

End SystemVocabulary.

(** ** Of the tasks *)

(** The record [fetch_weather_for_cities] returns when it finds no API
    key. *)
Definition missing_key_record : Dict :=
  [ ("error", VStr "OpenWeatherMap API key not found. Set OPENWEATHER_API_KEY environment variable.");
    ("cities_data", VList []);
    ("execution_time", VInt 0) ].


(** An odd integer beyond the range of doubles. *)
Definition beyond_doubles : Z := 2 ^ 1024 + 1.

Section TaskVocabulary.

Import Tasks.

(** The request the loop sends for a city. *)
Definition city_request (key city : string) : Request :=
  mkRequest base_url [("q", city); ("appid", key); ("units", "metric")].

(** What one city ends as: its weather record, or its entry in
    [failed_cities]. *)
Definition city_result (network : Network) (key city : string) : Dict + string :=
  match network (city_request key city) with
  | Raise e => inr (city +:+ " (Error: " +:+ str e +:+ ")")
  | Return response =>
      if status response =? 200 then
        match json response with
        | Raise e => inr (city +:+ " (Error: " +:+ str e +:+ ")")
        | Return data =>
            match city_weather data with
            | Raise e => inr (city +:+ " (Error: " +:+ str e +:+ ")")
            | Return w => inl w
            end
        end
      else inr (city +:+ " (HTTP " +:+ pretty (status response) +:+ ")")
  end.

(** The successes and the failures of a list of results, each in order. *)
Definition lefts {A B} (l : list (A + B)) : list A :=
  omap (fun x => match x with inl a => Some a | inr _ => None end) l.
Definition rights {A B} (l : list (A + B)) : list B :=
  omap (fun x => match x with inl _ => None | inr b => Some b end) l.

End TaskVocabulary.

Section TesterVocabulary.

Import ApiTester.

(** A sequence of [record_test] calls. *)
Definition record_all (t : Tester) (outcomes : list (string * bool)) : Tester :=
  fold_left (fun t o => record_test t o.1 o.2) outcomes t.

(** The number of passed tests among the calls. *)
Definition count_passed (outcomes : list (string * bool)) : Z :=
  Z.of_nat (length (filter (fun o => o.2 = true) outcomes)).

End TesterVocabulary.

(** * Properties *)

(** ** The status projection *)

Section Projection.

Import TaskStatusResponse.

Lemma project_cases task_id job :
  (Rq.is_finished job = true /\
   Main.project task_id job = mk task_id "completed" (Rq.result job) None) \/
  (Rq.is_finished job = false /\ Rq.is_failed job = true /\
   Main.project task_id job =
     mk task_id "failed" None (Some (Main.error_text (Rq.exc_info job)))) \/
  (Rq.is_finished job = false /\ Rq.is_failed job = false /\
   Rq.is_started job = true /\
   Main.project task_id job = mk task_id "in_progress" None None) \/
  (Rq.is_finished job = false /\ Rq.is_failed job = false /\
   Rq.is_started job = false /\ Rq.is_queued job = true /\
   Main.project task_id job = mk task_id "pending" None None) \/
  (Rq.is_finished job = false /\ Rq.is_failed job = false /\
   Rq.is_started job = false /\ Rq.is_queued job = false /\
   Main.project task_id job = mk task_id "unknown" None None).
Proof.
  unfold Main.project.
  destruct (Rq.is_finished job); [tauto|].
  destruct (Rq.is_failed job); [tauto|].
  destruct (Rq.is_started job); [tauto|].
  destruct (Rq.is_queued job); tauto.
Qed.



(** C7, as stated, fails: for a job that is none of finished, failed,
    started or queued the handler answers with a fifth status. *)
Lemma status_outside_four_states :
  status (Main.project "job-2" stopped_job) ∉ four_states.
Proof.
  cbn. unfold four_states. intros H.
  repeat (apply elem_of_cons in H as [H|H]; [discriminate H|]).
  by apply elem_of_nil in H.
Qed.

(** C7, amended: the status is one of pending, in_progress, completed,
    failed and unknown, and it is unknown exactly when the job is none of
    finished, failed, started or queued. *)
Theorem project_status_values task_id job :
  let r := Main.project task_id job in
  status r ∈ four_states ++ ["unknown"] /\
  (status r = "unknown" <->
   Rq.is_finished job = false /\ Rq.is_failed job = false /\
   Rq.is_started job = false /\ Rq.is_queued job = false).
Proof.
  cbn zeta.
  destruct (project_cases task_id job)
    as [(H1 & ->)|[(H1 & H2 & ->)|[(H1 & H2 & H3 & ->)|[(H1 & H2 & H3 & H4 & ->)|(H1 & H2 & H3 & H4 & ->)]]]];
    cbn; (split; [unfold four_states; set_solver|]);
    (split; [intros H; try discriminate H; auto | intros (? & ? & ? & ?); congruence]).
Qed.

End Projection.

(** ** The store under the steps of the system *)

Section StoreLemmas.

Import Core.

Lemma lookup_Store_update id id' expected mutation b :
  store (Store_update id' expected mutation b) !! id =
    if decide (id' = id) then
      match store b !! id with
      | Some r => if decide (state r = expected) then Some (mutation r) else Some r
      | None => None
      end
    else store b !! id.
Proof.
  unfold Store_update.
  destruct (decide (id' = id)) as [->|Hne].
  - destruct (store b !! id) as [r|] eqn:Hr; [|by rewrite Hr].
    destruct (decide (state r = expected)); cbn; [|done].
    by rewrite lookup_insert_eq.
  - destruct (store b !! id') as [r|]; [|done].
    destruct (decide (state r = expected)); cbn; [|done].
    by rewrite lookup_insert_ne.
Qed.

Lemma queue_Store_update id expected mutation b :
  queue (Store_update id expected mutation b) = queue b.
Proof.
  unfold Store_update. destruct (store b !! id) as [r|]; [|done].
  by destruct (decide (state r = expected)).
Qed.

Lemma evolves_Store_update id id' expected mutation b :
  (forall r, state r = expected -> evolves (Some r) (Some (mutation r))) ->
  evolves (store b !! id) (store (Store_update id' expected mutation b) !! id).
Proof.
  intros Hmut. rewrite lookup_Store_update.
  destruct (decide (id' = id)); [|constructor].
  destruct (store b !! id) as [r|]; [|constructor].
  destruct (decide (state r = expected)); [by apply Hmut|constructor].
Qed.

Lemma evolves_executor_start id b :
  evolves (store b !! id) (store (snd (executor_start b)) !! id).
Proof.
  unfold executor_start, Queue_pop, Store_get.
  destruct (queue b) as [|id' rest]; cbn; [constructor|].
  destruct (store b !! id') as [r|]; [|constructor].
  destruct (decide (state r = queued)); cbn; [|constructor].
  apply (evolves_Store_update id id' queued mark_running (mkBackend (store b) rest)).
  intros r' Hr'. by constructor.
Qed.

Lemma evolves_executor_finish registry w id id' b :
  evolves (store b !! id) (store (executor_finish registry w id' b) !! id).
Proof.
  unfold executor_finish, Store_get.
  destruct (store b !! id') as [r|]; [|constructor].
  destruct (registry !! function_ref r) as [f|].
  - destruct (f w (arguments r)) as [v|e];
      apply evolves_Store_update; intros r' Hr'; by constructor.
  - apply evolves_Store_update; intros r' Hr'; by constructor.
Qed.

Lemma get_task_status_backend task_id b :
  snd (Main.get_task_status task_id b) = b.
Proof.
  unfold Main.get_task_status, Rq.Job_fetch.
  destruct (Store_get task_id b); cbn; [done|].
  by destruct (contains _ _).
Qed.

Lemma enqueue_task_backend uuid function_ref args message b :
  snd (Main.enqueue_task uuid function_ref args message b) =
    Queue_push uuid (Store_create uuid function_ref args b).
Proof. reflexivity. Qed.

Lemma posted_cons e trace :
  System.posted (e :: trace) =
    match posts e with Some uuid => uuid :: System.posted trace
                  | None => System.posted trace end.
Proof. by destruct e. Qed.


(** A step that does not post [id] lets its record evolve. *)
Lemma step_evolves registry b e id :
  posts e <> Some id ->
  evolves (store b !! id) (store (System.step registry b e) !! id).
Proof.
  intros Hpost.
  destruct e as [uuid rq|uuid rq|uuid| |id' w|id']; cbn [System.step].
  1-3: unfold Main.enqueue_prime_task, Main.enqueue_fibonacci_task,
         Main.enqueue_weather_task;
       rewrite enqueue_task_backend; cbn;
       rewrite lookup_insert_ne; [constructor|]; cbn in Hpost; congruence.
  - apply evolves_executor_start.
  - apply evolves_executor_finish.
  - rewrite get_task_status_backend. constructor.
Qed.


Lemma run_snoc registry b trace e :
  System.run registry b (trace ++ [e]) =
    System.step registry (System.run registry b trace) e.
Proof. unfold System.run. by rewrite fold_left_app. Qed.

(** Ids that were never posted have no record. *)
Lemma run_not_posted registry trace b id :
  store b !! id = None ->
  id ∉ System.posted trace ->
  store (System.run registry b trace) !! id = None.
Proof.
  revert b. induction trace as [|e trace IH]; intros b Hb Hid; [done|].
  rewrite posted_cons in Hid. cbn. apply IH.
  - assert (posts e <> Some id) as Hne.
    { intros He. rewrite He in Hid. set_solver. }
    pose proof (step_evolves registry b e id Hne) as Hev.
    rewrite Hb in Hev. by inversion Hev.
  - destruct (posts e); set_solver.
Qed.

End StoreLemmas.

(** ** The status endpoint against the store *)

Section StatusReader.

Import Core.

Lemma get_task_status_found task_id b r :
  store b !! task_id = Some r ->
  Main.get_task_status task_id b =
    (inr (Main.project task_id (Rq.of_record task_id r)), b).
Proof.
  intros Hr. unfold Main.get_task_status, Rq.Job_fetch, Store_get. by rewrite Hr.
Qed.

Lemma get_task_status_missing task_id b :
  store b !! task_id = None ->
  Main.get_task_status task_id b =
    (inl (mkHTTPException 404 "Task not found"), b).
Proof.
  intros Hr. unfold Main.get_task_status, Rq.Job_fetch, Store_get. by rewrite Hr.
Qed.


(** C3: an id that no post ever drew gets the answer 404 "Task not found",
    whatever else happened in the system, and the answer is a function of
    the id and the backend. *)
Theorem status_of_unknown_id registry trace task_id :
  task_id ∉ System.posted trace ->
  let b := System.run registry Core.empty trace in
  Main.get_task_status task_id b =
    (inl (mkHTTPException 404 "Task not found"), b).
Proof.
  intros Hid b. apply get_task_status_missing.
  by apply run_not_posted.
Qed.

(** C6: polling leaves the backend (store and queue) as it was, and a second
    poll with nothing in between gives the same answer. *)
Theorem get_task_status_pure_read task_id b :
  snd (Main.get_task_status task_id b) = b /\
  store (snd (Main.get_task_status task_id b)) = store b /\
  queue (snd (Main.get_task_status task_id b)) = queue b /\
  Main.get_task_status task_id (snd (Main.get_task_status task_id b)) =
    Main.get_task_status task_id b.
Proof. by rewrite !get_task_status_backend. Qed.

Lemma enqueue_task_enqueued uuid function_ref args message b :
  enqueued (Main.enqueue_task uuid function_ref args message)
           uuid function_ref args message b.
Proof.
  unfold enqueued. rewrite enqueue_task_backend. cbn.
  split_and!; [done|by rewrite lookup_insert_eq| |done|].
  - intros id Hid. by rewrite lookup_insert_ne.
  - rewrite (get_task_status_found uuid _ (mkJobRecord queued function_ref args None None));
      [done|]. cbn. by rewrite lookup_insert_eq.
Qed.

(** C5: each of the three posts creates the queued record, appends its id
    to the queue and returns the id at once; a poll right after it reports
    the job as pending. *)
Theorem post_then_status_pending uuid b :
  (forall request,
     enqueued (Main.enqueue_prime_task uuid request) uuid
       "tasks.find_primes_in_range"
       [VInt (PrimeRequest.start request); VInt (PrimeRequest.end_ request)]
       ("Prime generation task enqueued for range "
          +:+ pretty (PrimeRequest.start request) +:+ "-"
          +:+ pretty (PrimeRequest.end_ request)) b) /\
  (forall request,
     enqueued (Main.enqueue_fibonacci_task uuid request) uuid
       "tasks.calculate_fibonacci" [VInt (FibonacciRequest.n request)]
       ("Fibonacci calculation task enqueued for n="
          +:+ pretty (FibonacciRequest.n request)) b) /\
  enqueued (Main.enqueue_weather_task uuid) uuid
    "tasks.fetch_weather_for_cities_sync" []
    "Weather data fetching task enqueued" b.
Proof. split_and!; intros; apply enqueue_task_enqueued. Qed.

End StatusReader.

(** ** Failures of job functions *)

Section Failures.

Import Core.

Lemma prefix_refl (s : string) : String.prefix s s = true.
Proof.
  induction s as [|c s IH]; [done|]. cbn. by destruct (ascii_dec c c).
Qed.

Lemma contains_append (pre needle : string) : contains needle (pre +:+ needle) = true.
Proof.
  induction pre as [|c pre IH].
  - change ("" +:+ needle) with needle.
    destruct needle as [|c s]; [done|]. cbn [contains]. by rewrite prefix_refl.
  - change (String c pre +:+ needle) with (String c (pre +:+ needle)).
    cbn [contains]. by rewrite IH, orb_true_r.
Qed.

(** C4: when the function of a running job raises, the executor step still
    returns (the exception is turned into data and the queue is left for
    the next iteration), the record becomes failed with no result and an
    error that carries the message raised, and the status endpoint answers
    failed with no result and an error text that contains that message. *)
Theorem raised_failure_is_recorded registry w task_id b r f e :
  store b !! task_id = Some r ->
  state r = running ->
  registry !! function_ref r = Some f ->
  f w (arguments r) = Raise e ->
  let b' := executor_finish registry w task_id b in
  store b' !! task_id =
    Some (mkJobRecord failed (function_ref r) (arguments r) None
            (Some (mkJobError ExecutionError (str e)))) /\
  queue b' = queue b /\
  Main.get_task_status task_id b' =
    (inr (TaskStatusResponse.mk task_id "failed" None
            (Some ("ExecutionError: " +:+ str e))), b') /\
  contains (str e) ("ExecutionError: " +:+ str e) = true.
Proof.
  intros Hr Hstate Hf Hraise b'.
  assert (store b' !! task_id =
            Some (mkJobRecord failed (function_ref r) (arguments r) None
                    (Some (mkJobError ExecutionError (str e))))) as Hb'.
  { subst b'. unfold executor_finish, Store_get. rewrite Hr, Hf, Hraise.
    rewrite lookup_Store_update, Hr.
    rewrite decide_True by done. by rewrite decide_True by done. }
  split_and!; [done| | |apply contains_append].
  - subst b'. unfold executor_finish, Store_get. rewrite Hr, Hf, Hraise.
    apply queue_Store_update.
  - rewrite (get_task_status_found _ _ _ Hb'). cbn.
    by destruct (str e).
Qed.

Lemma raised_failure_is_recorded_witness :
  let b' := executor_finish {[ "boom" := boom ]} quiet_world "job-1" boom_running in
  store b' !! "job-1" =
    Some (mkJobRecord failed "boom" [] None
            (Some (mkJobError ExecutionError "boom"))) /\
  queue b' = ["job-2"] /\
  Main.get_task_status "job-1" b' =
    (inr (TaskStatusResponse.mk "job-1" "failed" None
            (Some "ExecutionError: boom")), b') /\
  contains "boom" "ExecutionError: boom" = true.
Proof.
  apply (raised_failure_is_recorded {[ "boom" := boom ]} quiet_world "job-1"
           boom_running (mkJobRecord running "boom" [] None None) boom
           (mkException "RuntimeError" "boom")); reflexivity.
Defined.

End Failures.

(** ** The order of observed states *)

Section Observations.

Import Core System.

Variable registry : Registry.









End Observations.

(** ** Runs on concrete inputs *)

Section Runs.

Import Core System.

Example polled_run_job_a :
  observed Worker.registry "job-a" Core.empty polled_run =
    ["pending"; "in_progress"; "in_progress"; "completed"].
Proof. vm_compute. reflexivity. Qed.

Example polled_run_job_b :
  observed Worker.registry "job-b" Core.empty polled_run = ["completed"].
Proof. vm_compute. reflexivity. Qed.

Example polled_run_result :
  result <$> (store (run Worker.registry Core.empty polled_run) !! "job-a") =
    Some (Some [ ("primes", VList [VInt 2; VInt 3; VInt 5; VInt 7]);
                 ("count", VInt 4);
                 ("range", VStr "1-10");
                 ("execution_time", VFloat (S754_zero false)) ]).
Proof. vm_compute. reflexivity. Qed.

Example out_of_order_not_coarsened :
  ~ coarsened ["in_progress"; "pending"] completed_path.
Proof.
  intros H. unfold completed_path in H.
  repeat match goal with
         | H : coarsened _ _ |- _ => inversion H; clear H; subst
         end.
Qed.


Lemma status_of_unknown_id_witness :
  let b := run Worker.registry Core.empty polled_run in
  Main.get_task_status "not-a-real-id" b =
    (inl (mkHTTPException 404 "Task not found"), b).
Proof.
  apply (status_of_unknown_id Worker.registry polled_run "not-a-real-id").
  apply (bool_decide_unpack _). vm_compute. exact I.
Defined.

Example post_message :
  fst (Main.enqueue_prime_task "job-a" (PrimeRequest.mk 1 1000) Core.empty) =
    inr (TaskResponse.mk "job-a" "enqueued"
           "Prime generation task enqueued for range 1-1000").
Proof. vm_compute. reflexivity. Qed.

End Runs.

(** ** The weather task without an API key *)

Section Weather.

Import Tasks.

(** C10: with OPENWEATHER_API_KEY unset, the coroutine and its synchronous
    wrapper return the record with the error message, an empty cities_data
    and execution_time 0, and no request is sent. *)
Theorem fetch_weather_without_key (environ : Environ) network elapsed :
  environ !! "OPENWEATHER_API_KEY" = None ->
  fetch_weather_for_cities environ network elapsed = (missing_key_record, []) /\
  fetch_weather_for_cities_sync environ network elapsed = (missing_key_record, []) /\
  dict_get missing_key_record "cities_data" = Some (VList []) /\
  dict_get missing_key_record "execution_time" = Some (VInt 0) /\
  is_Some (dict_get missing_key_record "error").
Proof.
  intros Hkey.
  unfold fetch_weather_for_cities_sync, fetch_weather_for_cities, getenv.
  rewrite Hkey. cbn. split_and!; by eauto.
Qed.

Lemma fetch_weather_without_key_witness :
  fetch_weather_for_cities ∅ (Core.network quiet_world) (S754_zero false)
    = (missing_key_record, []) /\
  fetch_weather_for_cities_sync ∅ (Core.network quiet_world) (S754_zero false)
    = (missing_key_record, []) /\
  dict_get missing_key_record "cities_data" = Some (VList []) /\
  dict_get missing_key_record "execution_time" = Some (VInt 0) /\
  is_Some (dict_get missing_key_record "error").
Proof.
  apply (fetch_weather_without_key ∅ (Core.network quiet_world) (S754_zero false)).
  reflexivity.
Defined.

(** With a key, every city is asked for, in order. *)
Lemma weather_iteration_sent network key st city :
  sent (weather_iteration network key st city) =
    sent st ++ [mkRequest base_url [("q", city); ("appid", key); ("units", "metric")]].
Proof.
  unfold weather_iteration.
  destruct (network _) as [response|e]; cbn; [|done].
  destruct (status response =? 200); cbn; [|done].
  destruct (json response) as [data|e]; cbn; [|done].
  by destruct (city_weather data) as [w|e].
Qed.

Example fetch_weather_with_key_requests :
  length (snd (fetch_weather_for_cities {[ "OPENWEATHER_API_KEY" := "k" ]}
                 (Core.network quiet_world) (S754_zero false))) = 15%nat.
Proof. vm_compute. reflexivity. Qed.

End Weather.

(** ** Fibonacci *)

Section Fibonacci.

Import Tasks.










(** The value the repository's API test expects for n = 30. *)
Example calculate_fibonacci_30 :
  calculate_fibonacci (S754_zero false) 30 =
    Return [ ("fibonacci_number", VInt 832040);
             ("position", VInt 30);
             ("execution_time", VFloat (S754_zero false)) ].
Proof. vm_compute. reflexivity. Qed.

(** The first position that takes the recursive branch. *)
Example calculate_fibonacci_31 :
  calculate_fibonacci (S754_zero false) 31 =
    Return [ ("fibonacci_number", VInt 1346269);
             ("position", VInt 31);
             ("execution_time", VFloat (S754_zero false)) ].
Proof. vm_compute. reflexivity. Qed.

End Fibonacci.

(** ** [int(math.sqrt(n))] in double precision *)

Section FloatSqrt.

Import Float.

Lemma digits2_pos_bounds (p : positive) :
  2 ^ (Zpos (digits2_pos p) - 1) <= Zpos p < 2 ^ Zpos (digits2_pos p).
Proof.
  induction p as [p IH|p IH|]; cbn [digits2_pos].
  - rewrite Pos2Z.inj_succ.
    replace (Z.succ (Zpos (digits2_pos p)) - 1) with (Z.succ (Zpos (digits2_pos p) - 1)) by lia.
    rewrite !Z.pow_succ_r by lia. lia.
  - rewrite Pos2Z.inj_succ.
    replace (Z.succ (Zpos (digits2_pos p)) - 1) with (Z.succ (Zpos (digits2_pos p) - 1)) by lia.
    rewrite !Z.pow_succ_r by lia. lia.
  - cbn. lia.
Qed.

Lemma digits2_pos_unique (p : positive) (k : Z) :
  2 ^ (k - 1) <= Zpos p < 2 ^ k -> Zpos (digits2_pos p) = k.
Proof.
  intros [Hlo Hhi]. pose proof (digits2_pos_bounds p) as [Hlo' Hhi'].
  assert (0 < k) as Hk.
  { destruct (Z.lt_trichotomy k 0) as [H|[H|H]]; [|subst; cbn in Hhi; lia|done].
    rewrite Z.pow_neg_r in Hhi by done. lia. }
  destruct (Z.lt_trichotomy (Zpos (digits2_pos p)) k) as [H|[H|H]]; [|done|].
  - assert (2 ^ Zpos (digits2_pos p) <= 2 ^ (k - 1)) by (apply Z.pow_le_mono_r; lia). lia.
  - assert (2 ^ k <= 2 ^ (Zpos (digits2_pos p) - 1)) by (apply Z.pow_le_mono_r; lia). lia.
Qed.

Lemma iter_xO (m k : positive) : Zpos (Pos.iter xO m k) = Zpos m * 2 ^ Zpos k.
Proof.
  induction k as [|k IH] using Pos.peano_ind.
  - cbn. lia.
  - rewrite Pos.iter_succ, Pos2Z.inj_succ, Z.pow_succ_r by lia.
    rewrite Pos2Z.inj_xO, IH. lia.
Qed.

(** A mantissa of 53 bits with an exponent in range is left alone by the
    rounding to nearest. *)
Lemma shr_fexp_fits (m : positive) (e : Z) (l : location) :
  Zpos (digits2_pos m) = prec -> 3 - emax - prec <= e ->
  shr_fexp prec emax (Zpos m) e l = (shr_record_of_loc (Zpos m) l, e).
Proof.
  intros Hd He. unfold shr_fexp, fexp, SpecFloat.emin. cbn [Zdigits2]. rewrite Hd.
  replace (Z.max (prec + e - prec) (3 - emax - prec) - e) with 0 by lia.
  reflexivity.
Qed.

Lemma loc_of_shr_record_of_loc m l :
  loc_of_shr_record (shr_record_of_loc m l) = l.
Proof. by destruct l as [|[]]. Qed.

(** Rounding a 53-bit mantissa [m] that stands for a value between [m] and
    [m + 1]: the result is a finite float whose truncation is at least the
    truncation of [m] at exponent [e], and at most that of [m + 1]. *)
Lemma binary_round_aux_53 (m : positive) (e : Z) (l : location) :
  Zpos (digits2_pos m) = prec -> 3 - emax - prec <= e < 0 ->
  exists m' e',
    binary_round_aux prec emax false (Zpos m) e l = S754_finite false m' e' /\
    Zpos m / 2 ^ (- e) <= Z.shiftl (Zpos m') e' <= (Zpos m + 1) / 2 ^ (- e).
Proof.
  intros Hd He. unfold binary_round_aux.
  rewrite shr_fexp_fits by (done || lia).
  rewrite loc_of_shr_record_of_loc.
  assert (shr_m (shr_record_of_loc (Zpos m) l) = Zpos m) as -> by (by destruct l as [|[]]).
  pose proof (digits2_pos_bounds m) as Hm. rewrite Hd in Hm. unfold prec in Hm.
  assert (0 < 2 ^ (- e)) as Hpow by (apply Z.pow_pos_nonneg; lia).
  assert (Zpos m / 2 ^ (- e) <= (Zpos m + 1) / 2 ^ (- e)) as Hmono
    by (apply Z.div_le_mono; lia).
  assert (forall q : positive, Zpos q = Zpos m \/ Zpos q = Zpos m + 1 ->
            exists m' e',
              (let '(mrs'', e'') := shr_fexp prec emax (Zpos q) e loc_Exact in
               match shr_m mrs'' with
               | 0 => S754_zero false
               | Zpos m0 => if e'' <=? emax - prec then S754_finite false m0 e''
                            else S754_infinity false
               | Zneg _ => S754_nan
               end) = S754_finite false m' e' /\
              Zpos m / 2 ^ (- e) <= Z.shiftl (Zpos m') e' <= (Zpos m + 1) / 2 ^ (- e)) as Hround.
  { intros q Hq.
    destruct (decide (Zpos q < 2 ^ 53)) as [Hlt|Hge].
    - rewrite shr_fexp_fits; [|apply digits2_pos_unique; unfold prec; lia|lia].
      cbn [shr_record_of_loc shr_m].
      rewrite (proj2 (Z.leb_le _ _)) by (unfold emax, prec; lia).
      exists q, e. split; [done|].
      rewrite <- (Z.opp_involutive e) at 2 3.
      rewrite Z.shiftl_opp_r, Z.shiftr_div_pow2 by lia.
      destruct Hq as [-> | ->]; lia.
    - assert (Zpos q = 2 ^ 53) as Hq53 by lia.
      assert (q = 9007199254740992%positive) as -> by (apply Pos2Z.inj; rewrite Hq53; reflexivity).
      unfold shr_fexp, fexp, SpecFloat.emin. cbn [Zdigits2].
      change (Zpos (digits2_pos 9007199254740992)) with 54.
      replace (Z.max (54 + e - prec) (3 - emax - prec) - e) with 1 by (unfold prec, emax in *; lia).
      cbn [shr shr_record_of_loc iter_pos shr_1 shr_m orb].
      rewrite (proj2 (Z.leb_le _ _)) by (unfold emax, prec; lia).
      eexists _, _. split; [done|].
      destruct Hq as [Hq|Hq]; [lia|].
      assert (Z.shiftl 4503599627370496 (e + 1) = (Zpos m + 1) / 2 ^ (- e)) as ->; [|lia].
      rewrite <- Hq.
      replace (e + 1) with (- (- e - 1)) by lia.
      rewrite Z.shiftl_opp_r, Z.shiftr_div_pow2 by lia.
      replace (2 ^ (- e)) with (2 * 2 ^ (- e - 1)).
      2:{ rewrite <- Z.pow_succ_r by lia. f_equal. lia. }
      change 9007199254740992 with (2 * 4503599627370496).
      rewrite Z.div_mul_cancel_l; lia. }
  destruct l as [|[| |]]; cbn [round_nearest_even].
  - apply Hround. by left.
  - destruct (Z.even (Zpos m)).
    + apply Hround. by left.
    + apply (Hround (m + 1)%positive). right. lia.
  - apply Hround. by left.
  - apply (Hround (m + 1)%positive). right. lia.
Qed.

Lemma binary_round_aux_exact (m : positive) (e : Z) :
  Zpos (digits2_pos m) = prec -> 3 - emax - prec <= e <= emax - prec ->
  binary_round_aux prec emax false (Zpos m) e loc_Exact = S754_finite false m e.
Proof.
  intros Hd He. unfold binary_round_aux.
  rewrite shr_fexp_fits by (done || lia). cbn [shr_record_of_loc shr_m loc_of_shr_record round_nearest_even].
  rewrite shr_fexp_fits by (done || lia). cbn [shr_record_of_loc shr_m].
  by rewrite (proj2 (Z.leb_le _ _)) by lia.
Qed.

(** [float(n)] is exact for an integer of at most 53 bits: the mantissa is
    [n] shifted up to 53 bits. *)
Lemma of_int_exact (p : positive) :
  Zpos p < 2 ^ 53 ->
  exists mz : positive,
    of_int (Zpos p) = Return (S754_finite false mz (Zpos (digits2_pos p) - 53)) /\
    Zpos mz = Zpos p * 2 ^ (53 - Zpos (digits2_pos p)) /\
    Zpos (digits2_pos mz) = 53.
Proof.
  intros Hp. pose proof (digits2_pos_bounds p) as Hd.
  unfold of_int, binary_normalize, binary_round.
  remember (Zpos (digits2_pos p)) as d eqn:Hdef.
  assert (0 < d <= 53) as Hd53.
  { split; [lia|]. destruct (decide (d <= 53)) as [|Hgt]; [done|].
    assert (2 ^ 53 <= 2 ^ (d - 1)) by (apply Z.pow_le_mono_r; lia). lia. }
  replace (fexp prec emax (d + 0)) with (d - 53)
    by (unfold fexp, SpecFloat.emin, prec, emax; lia).
  unfold shl_align. rewrite Z.sub_0_r.
  destruct (d - 53) as [|k|k] eqn:Hk; [|lia|].
  - assert (Zpos (digits2_pos p) = prec) as Hdp by (unfold prec; lia).
    rewrite binary_round_aux_exact; [|done|unfold emax, prec; lia].
    exists p. replace (53 - d) with 0 by lia. rewrite Z.mul_1_r. split_and!; [done|done|lia].
  - assert (Zpos (Pos.iter xO p k) = Zpos p * 2 ^ (53 - d)) as Hmz.
    { rewrite iter_xO. do 2 f_equal. lia. }
    assert (Zpos (digits2_pos (Pos.iter xO p k)) = prec) as Hdp.
    { apply digits2_pos_unique. rewrite Hmz. unfold prec.
      assert (2 ^ (53 - 1) = 2 ^ (d - 1) * 2 ^ (53 - d)) as ->
        by (rewrite <- Z.pow_add_r by lia; f_equal; lia).
      assert (2 ^ 53 = 2 ^ d * 2 ^ (53 - d)) as ->
        by (rewrite <- Z.pow_add_r by lia; f_equal; lia).
      assert (0 < 2 ^ (53 - d)) by (apply Z.pow_pos_nonneg; lia).
      split; [apply Z.mul_le_mono_nonneg_r|apply Z.mul_lt_mono_pos_r]; lia. }
    rewrite binary_round_aux_exact; [|done|unfold emax, prec; lia].
    exists (Pos.iter xO p k). by split_and!.
Qed.

(** [int(math.sqrt(n))] on an integer of at most 53 bits is the integer
    square root of [n], or one more. *)
Lemma int_math_sqrt_bounds (n : Z) :
  1 <= n < 2 ^ 53 ->
  exists k, (r ← math_sqrt n; to_int r) = Return k /\
            Z.sqrt n <= k <= Z.sqrt n + 1.
Proof.
  intros Hn. destruct n as [|p|p]; try lia.
  destruct (of_int_exact p) as (mz & Hof & Hmz & Hdmz); [lia|].
  pose proof (digits2_pos_bounds p) as Hd.
  remember (Zpos (digits2_pos p)) as d eqn:Hdef.
  assert (0 < d <= 53) as Hd53.
  { split; [lia|]. destruct (decide (d <= 53)) as [|Hgt]; [done|].
    assert (2 ^ 53 <= 2 ^ (d - 1)) by (apply Z.pow_le_mono_r; lia). lia. }
  unfold math_sqrt. rewrite Hof. cbn [mbind outcome_bind].
  unfold SFsqrt, SFsqrt_core_binary. cbn [Zdigits2]. rewrite Hdmz.
  (* the exponent of the root, and how far the mantissa is shifted *)
  remember (53 - (d + 1) / 2) as k0 eqn:Hk0.
  assert (26 <= k0 <= 52 /\ -1 <= d - 2 * ((d + 1) / 2) <= 0) as [Hk0r Hpar]
    by (Z.to_euclidean_division_equations; lia).
  replace (Z.min (fexp prec emax (Z.div2 (53 + (d - 53) + 1))) (Z.div2 (d - 53)))
    with (- k0).
  2:{ rewrite !Z.div2_div. unfold fexp, SpecFloat.emin, prec, emax.
      Z.to_euclidean_division_equations; lia. }
  remember (d - 53 - 2 * - k0) as s eqn:Hs.
  assert (52 <= s <= 53) as Hsr by lia.
  destruct s as [|sp|sp]; try lia.
  rewrite Z.shiftl_mul_pow2 by lia.
  assert (Zpos mz * 2 ^ Zpos sp = Zpos p * 2 ^ (2 * k0)) as Hm'.
  { rewrite Hmz, <- Z.mul_assoc, <- Z.pow_add_r by lia. do 2 f_equal. lia. }
  rewrite Hm'.
  assert (2 ^ (2 * k0) = 2 ^ k0 * 2 ^ k0) as Hsq
    by (rewrite <- Z.pow_add_r by lia; f_equal; lia).
  assert (0 < 2 ^ k0) as Hpow by (apply Z.pow_pos_nonneg; lia).
  (* the shifted mantissa has 105 or 106 bits *)
  assert (2 ^ 104 <= Zpos p * 2 ^ (2 * k0) < 2 ^ 106) as Hrange.
  { assert (2 ^ 104 <= 2 ^ (d - 1) * 2 ^ (2 * k0)).
    { rewrite <- Z.pow_add_r by lia. apply Z.pow_le_mono_r; lia. }
    assert (2 ^ d * 2 ^ (2 * k0) <= 2 ^ 106).
    { rewrite <- Z.pow_add_r by lia. apply Z.pow_le_mono_r; lia. }
    assert (0 < 2 ^ (2 * k0)) by (apply Z.pow_pos_nonneg; lia).
    split.
    - etransitivity; [eassumption|]. apply Z.mul_le_mono_nonneg_r; lia.
    - eapply Z.lt_le_trans; [|eassumption]. apply Z.mul_lt_mono_pos_r; lia. }
  pose proof (Z.sqrtrem_sqrt (Zpos p * 2 ^ (2 * k0))) as Hfst.
  destruct (Z.sqrtrem (Zpos p * 2 ^ (2 * k0))) as [q r]. cbn [fst] in Hfst. subst q.
  remember (Z.sqrt (Zpos p * 2 ^ (2 * k0))) as q eqn:Hq.
  assert (2 ^ 52 <= q < 2 ^ 53) as Hqr.
  { subst q. split.
    - apply Z.sqrt_le_square; [lia|lia|]. change (2 ^ 52 * 2 ^ 52) with (2 ^ 104). lia.
    - apply Z.sqrt_lt_square; [lia|lia|]. change (2 ^ 53 * 2 ^ 53) with (2 ^ 106). lia. }
  destruct q as [|qp|qp]; try lia.
  destruct (binary_round_aux_53 qp (- k0)
              (if r =? 0 then loc_Exact
               else loc_Inexact (if r <=? Zpos qp then Lt else Gt)))
    as (m' & e' & Hround & Hlo & Hhi).
  { apply digits2_pos_unique. unfold prec. lia. }
  { unfold emax, prec. lia. }
  rewrite Hround. cbn [to_int cond_Zopp]. eexists. split; [done|].
  rewrite Z.opp_involutive in Hlo, Hhi.
  pose proof (Z.sqrt_spec (Zpos p) ltac:(lia)) as Hsp. cbn zeta in Hsp.
  remember (Z.sqrt (Zpos p)) as a eqn:Ha.
  assert (0 <= a) as Ha0 by (subst a; apply Z.sqrt_nonneg).
  assert (a * 2 ^ k0 <= Zpos qp) as Hlow.
  { rewrite Hq. apply Z.sqrt_le_square; [lia|nia|]. rewrite Hsq. nia. }
  assert (Zpos qp < (a + 1) * 2 ^ k0) as Hupp.
  { rewrite Hq. apply Z.sqrt_lt_square; [lia|nia|]. rewrite Hsq. nia. }
  split.
  - etransitivity; [|exact Hlo]. apply Z.div_le_lower_bound; lia.
  - etransitivity; [exact Hhi|]. apply Z.div_le_upper_bound; lia.
Qed.

End FloatSqrt.

(** ** Trial division *)

Section PrimeSearch.

Import Tasks.

Lemma elem_of_range start stop x : x ∈ range start stop <-> start <= x < stop.
Proof.
  unfold range. rewrite list_elem_of_In, in_map_iff. split.
  - intros (i & <- & Hi). apply in_seq in Hi. lia.
  - intros Hx. exists (Z.to_nat (x - start)). split; [lia|]. apply in_seq. lia.
Qed.

Lemma elem_of_range_step_odd k i :
  i ∈ range_step 3 (k + 1) 2 <-> 3 <= i <= k /\ i mod 2 = 1.
Proof.
  unfold range_step. rewrite list_elem_of_In, in_map_iff. split.
  - intros (j & <- & Hj). apply in_seq in Hj.
    revert Hj. Z.to_euclidean_division_equations. lia.
  - intros [Hi Hodd]. exists (Z.to_nat ((i - 3) / 2)). split.
    + revert Hodd. Z.to_euclidean_division_equations. lia.
    + apply in_seq. revert Hodd. Z.to_euclidean_division_equations. lia.
Qed.

Lemma is_prime_loop_true n l :
  is_prime_loop n l = true <-> forall i, i ∈ l -> n mod i <> 0.
Proof.
  induction l as [|i l IH]; cbn [is_prime_loop].
  - split; [|done]. intros _ i Hi. by apply elem_of_nil in Hi.
  - destruct (n mod i =? 0) eqn:Hmod.
    + apply Z.eqb_eq in Hmod. split; [done|].
      intros H. exfalso. apply (H i); [apply list_elem_of_here|done].
    + apply Z.eqb_neq in Hmod. rewrite IH. split.
      * intros H j Hj. apply elem_of_cons in Hj as [->|Hj]; auto.
      * intros H j Hj. apply H. by apply list_elem_of_further.
Qed.

Lemma sqrt_succ_lt n : 3 <= n -> Z.sqrt n + 1 < n.
Proof.
  intros Hn. pose proof (Z.sqrt_spec n ltac:(lia)) as Hs. cbn zeta in Hs.
  pose proof (Z.sqrt_nonneg n). nia.
Qed.

(** Trial division by the odd numbers up to a bound [k] between the square
    root of [n] and [n] decides the primality of an odd [n]. *)
Lemma trial_division n k :
  3 <= n -> n mod 2 = 1 -> Z.sqrt n <= k < n ->
  is_prime_loop n (range_step 3 (k + 1) 2) = true <-> Z.prime n.
Proof.
  intros Hn Hodd Hk. rewrite is_prime_loop_true. split.
  - intros Hloop. split; [lia|]. intros a Ha [z Hz].
    assert (1 < z < n) as Hzr by nia.
    (* the smaller of the two factors is odd and at most the square root *)
    set (c := Z.min a z).
    assert (1 < c /\ c * c <= n /\ (c | n)) as (Hc1 & Hcc & Hcn).
    { subst c. destruct (Z.min_spec a z) as [[Hmin ->]|[Hmin ->]].
      - split_and!; [lia|nia|]. exists z. lia.
      - split_and!; [lia|nia|]. exists a. lia. }
    assert (c <= Z.sqrt n) as Hsq by (apply Z.sqrt_le_square; lia).
    assert (c mod 2 = 1) as Hcodd.
    { assert (c mod 2 = 0 \/ c mod 2 = 1) as [Hc0|Hc1']
        by (Z.to_euclidean_division_equations; lia); [exfalso|done].
      destruct Hcn as [w Hw]. apply Z.mod_divide in Hc0 as [v Hv]; [|lia].
      rewrite Hw, Hv, Z.mul_assoc, Z.mod_mul in Hodd; lia. }
    apply (Hloop c).
    + apply elem_of_range_step_odd. split; [|done].
      split; [|lia]. revert Hcodd. Z.to_euclidean_division_equations. lia.
    + apply Z.mod_divide; [lia|done].
  - intros [_ Hprime] i Hi Hmod.
    apply elem_of_range_step_odd in Hi as [Hi _].
    apply (Hprime i); [lia|]. apply Z.mod_divide; [lia|done].
Qed.

Lemma is_prime_spec n :
  n < 2 ^ 53 -> exists b : bool, is_prime n = Return b /\ (b = true <-> Z.prime n).
Proof.
  intros Hn. unfold is_prime.
  destruct (n <? 2) eqn:H2; [apply Z.ltb_lt in H2|apply Z.ltb_ge in H2].
  { exists false. split; [done|]. split; [done|]. intros [? _]. lia. }
  destruct (n =? 2) eqn:He; [apply Z.eqb_eq in He|apply Z.eqb_neq in He].
  { exists true. subst n. split; [done|]. split; [intros _; apply Z.prime_2|done]. }
  destruct (n mod 2 =? 0) eqn:Hm; [apply Z.eqb_eq in Hm|apply Z.eqb_neq in Hm].
  { exists false. split; [done|]. split; [done|]. intros [_ Hp].
    exfalso. apply (Hp 2); [lia|]. apply Z.mod_divide; [lia|done]. }
  destruct (int_math_sqrt_bounds n) as (k & Hk & Hkr); [lia|].
  assert (n mod 2 = 1) as Hodd by (pose proof (Z.mod_pos_bound n 2); lia).
  pose proof (sqrt_succ_lt n ltac:(lia)) as Hlt.
  exists (is_prime_loop n (range_step 3 (k + 1) 2)). split.
  - destruct (Float.math_sqrt n) as [r|e]; [|discriminate Hk].
    cbn [mbind outcome_bind] in Hk |- *. by rewrite Hk.
  - apply trial_division; lia.
Qed.

Lemma StronglySorted_seq s n : StronglySorted lt (seq s n).
Proof.
  revert s. induction n as [|n IH]; intros s; cbn [seq]; constructor; [apply IH|].
  apply Forall_forall. intros x Hx%list_elem_of_In%in_seq. lia.
Qed.

Lemma StronglySorted_range start stop : StronglySorted Z.lt (range start stop).
Proof.
  unfold range.
  apply StronglySorted_fmap with (R1 := lt); [|apply StronglySorted_seq].
  intros i j Hij. lia.
Qed.

Lemma StronglySorted_sublist {A} (R : relation A) (l k : list A) :
  l `sublist_of` k -> StronglySorted R k -> StronglySorted R l.
Proof.
  induction 1 as [|x l k Hsub IH|x l k Hsub IH]; intros Hk; [done| |].
  - apply StronglySorted_cons in Hk as [Hx Hk].
    apply StronglySorted_cons. split; [|by apply IH].
    apply Forall_forall. intros y Hy. rewrite Forall_forall in Hx.
    apply Hx. by eapply elem_of_sublist.
  - apply StronglySorted_cons in Hk as [_ Hk]. by apply IH.
Qed.




End PrimeSearch.

(** ** The prime search beyond the doubles *)

Section Primes.

Import Tasks.

(** The count the repository's API test expects for the range 1-1000. *)
Example find_primes_1_1000_count :
  (d ← find_primes_in_range (S754_zero false) 1 1000; Return (dict_get d "count"))
    = Return (Some (VInt 168)).
Proof. vm_compute. reflexivity. Qed.

(** C8 at a failing input: on the one-number range that holds 2^1024 + 1 the
    call does not return a record; the conversion of the candidate to a
    float for [math.sqrt] raises. *)
Theorem find_primes_in_range_overflow elapsed :
  find_primes_in_range elapsed beyond_doubles beyond_doubles =
    Raise (OverflowError "int too large to convert to float").
Proof. vm_compute. reflexivity. Qed.

(** Posted through the API, that search ends as a failed job whose error
    carries the message of the exception. *)
Example overflow_job_fails :
  let b := System.run Worker.registry Core.empty
             [ System.PostPrimes "job-c" (PrimeRequest.mk beyond_doubles beyond_doubles);
               System.ExecutorStart;
               System.ExecutorFinish "job-c" quiet_world ] in
  fst (Main.get_task_status "job-c" b) =
    inr (TaskStatusResponse.mk "job-c" "failed" None
           (Some "ExecutionError: int too large to convert to float")).
Proof. vm_compute. reflexivity. Qed.

End Primes.

(** ** The prime search at its edges *)

Section FloatOverflow.

Import Float.

Lemma shr_m_shr_1 (r : shr_record) :
  0 <= shr_m r -> shr_m (shr_1 r) = shr_m r / 2.
Proof.
  destruct r as [m rb sb]. cbn [shr_m]. intros Hm.
  destruct m as [|[p|p|]|p]; cbn [shr_1 shr_m]; try lia.
  - done.
  - change (Z.pos p~1) with (2 * Z.pos p + 1).
    Z.to_euclidean_division_equations. lia.
  - change (Z.pos p~0) with (2 * Z.pos p).
    Z.to_euclidean_division_equations. lia.
  - done.
Qed.

Lemma shr_m_iter_pos (k : positive) (r : shr_record) :
  0 <= shr_m r -> shr_m (SpecFloat.iter_pos shr_1 k r) = shr_m r / 2 ^ Zpos k.
Proof.
  revert r. induction k as [k IH|k IH|]; intros r Hr; cbn [SpecFloat.iter_pos].
  - assert (0 < 2 ^ Zpos k) as Hpow by (apply Z.pow_pos_nonneg; lia).
    assert (2 ^ Zpos k~1 = 2 * 2 ^ Zpos k * 2 ^ Zpos k) as ->.
    { replace (Zpos k~1) with (1 + Zpos k + Zpos k) by lia.
      rewrite !Z.pow_add_r by lia. done. }
    assert (0 <= shr_m (shr_1 r)) as H1
      by (rewrite shr_m_shr_1 by done; apply Z.div_pos; lia).
    assert (0 <= shr_m (SpecFloat.iter_pos shr_1 k (shr_1 r))) as H2
      by (rewrite IH by done; apply Z.div_pos; lia).
    rewrite IH, IH, shr_m_shr_1 by done.
    rewrite !Z.div_div by lia. f_equal; lia.
  - assert (0 < 2 ^ Zpos k) as Hpow by (apply Z.pow_pos_nonneg; lia).
    assert (2 ^ Zpos k~0 = 2 ^ Zpos k * 2 ^ Zpos k) as ->.
    { replace (Zpos k~0) with (Zpos k + Zpos k) by lia.
      rewrite !Z.pow_add_r by lia. done. }
    assert (0 <= shr_m (SpecFloat.iter_pos shr_1 k r)) as H2
      by (rewrite IH by done; apply Z.div_pos; lia).
    rewrite IH, IH by done.
    rewrite !Z.div_div by lia. f_equal; lia.
  - by rewrite shr_m_shr_1.
Qed.

(** Rounding a positive mantissa whose value is at least 2^1024 gives
    infinity. *)
Lemma binary_round_aux_overflow (m : positive) (e : Z) (l : location) :
  emax < Zpos (digits2_pos m) + e ->
  binary_round_aux prec emax false (Zpos m) e l = S754_infinity false.
Proof.
  intros He. unfold binary_round_aux.
  destruct (shr_fexp prec emax (Zpos m) e l) as [mrs' e'] eqn:H1.
  assert (emax - prec < e' /\ 0 < shr_m mrs') as [He' Hm'].
  { revert H1. unfold shr_fexp, shr, fexp, SpecFloat.emin. cbn [Zdigits2].
    pose proof (digits2_pos_bounds m) as Hd.
    remember (Zpos (digits2_pos m)) as d eqn:Hdef.
    assert (Z.max (d + e - prec) (3 - emax - prec) - e = d - prec) as ->
      by (unfold prec, emax in *; lia).
    assert (shr_m (shr_record_of_loc (Zpos m) l) = Zpos m) as Hrec
      by (by destruct l as [|[]]).
    destruct (d - prec) as [|s|s] eqn:Hs; intros [= <- <-].
    - rewrite Hrec. unfold prec, emax in *. lia.
    - rewrite shr_m_iter_pos by (rewrite Hrec; lia). rewrite Hrec.
      split; [unfold prec, emax in *; lia|].
      apply Z.div_str_pos. split; [apply Z.pow_pos_nonneg; lia|].
      etransitivity; [|apply Hd]. apply Z.pow_le_mono_r; unfold prec in *; lia.
    - rewrite Hrec. unfold prec, emax in *. lia. }
  set (m1 := round_nearest_even (shr_m mrs') (loc_of_shr_record mrs')).
  assert (0 < m1) as Hm1.
  { subst m1. destruct (loc_of_shr_record mrs') as [|[]]; cbn [round_nearest_even];
      try lia. destruct (Z.even (shr_m mrs')); lia. }
  destruct m1 as [|q|q] eqn:Hq; try lia.
  destruct (shr_fexp prec emax (Zpos q) e' loc_Exact) as [mrs'' e''] eqn:H2.
  assert (e' <= e'' /\ 0 < shr_m mrs'') as [He'' Hm''].
  { revert H2. unfold shr_fexp, shr, fexp, SpecFloat.emin. cbn [Zdigits2].
    pose proof (digits2_pos_bounds q) as Hd.
    remember (Zpos (digits2_pos q)) as d eqn:Hdef.
    assert (Z.max (d + e' - prec) (3 - emax - prec) - e' = d - prec) as ->
      by (unfold prec, emax in *; lia).
    destruct (d - prec) as [|s|s] eqn:Hs; intros [= <- <-]; cbn [shr_record_of_loc shr_m];
      [lia| |lia].
    rewrite shr_m_iter_pos by (cbn; lia). cbn [shr_m].
    split; [lia|]. apply Z.div_str_pos. split; [apply Z.pow_pos_nonneg; lia|].
    etransitivity; [|apply Hd]. apply Z.pow_le_mono_r; unfold prec in *; lia. }
  destruct (shr_m mrs'') as [|p|p]; try lia.
  by rewrite (proj2 (Z.leb_gt _ _)) by lia.
Qed.

(** [float(n)] raises for every integer from 2^1024 on. *)
Lemma of_int_overflow (n : Z) :
  2 ^ 1024 <= n ->
  of_int n = Raise (OverflowError "int too large to convert to float").
Proof.
  intros Hn. destruct n as [|p|p]; [done| |done].
  pose proof (digits2_pos_bounds p) as Hd.
  unfold of_int, binary_normalize, binary_round.
  remember (Zpos (digits2_pos p)) as d eqn:Hdef.
  assert (1024 < d) as Hd1024.
  { destruct (decide (1024 < d)) as [|Hle]; [done|].
    assert (2 ^ d <= 2 ^ 1024) by (apply Z.pow_le_mono_r; lia). lia. }
  assert (fexp prec emax (d + 0) = d - 53) as ->
    by (unfold fexp, SpecFloat.emin, prec, emax; lia).
  unfold shl_align. rewrite Z.sub_0_r.
  destruct (d - 53) as [|s|s] eqn:Hs; try lia.
  rewrite binary_round_aux_overflow; [done|]. unfold emax. lia.
Qed.

End FloatOverflow.

Section PrimeSearchEdges.

Import Tasks.


Lemma range_cons start stop :
  start < stop -> range start stop = start :: range (start + 1) stop.
Proof.
  intros H. unfold range.
  replace (Z.to_nat (stop - start)) with (S (Z.to_nat (stop - (start + 1)))) by lia.
  cbn [seq map]. f_equal; [lia|].
  rewrite <- seq_shift, map_map. apply map_ext. intros i. lia.
Qed.

Lemma is_prime_even n : 2 < n -> n mod 2 = 0 -> is_prime n = Return false.
Proof.
  intros Hn Heven. unfold is_prime.
  rewrite (proj2 (Z.ltb_ge _ _)) by lia.
  rewrite (proj2 (Z.eqb_neq _ _)) by lia.
  by rewrite (proj2 (Z.eqb_eq _ _)).
Qed.

Lemma is_prime_overflow n :
  2 ^ 1024 <= n -> n mod 2 = 1 ->
  is_prime n = Raise (OverflowError "int too large to convert to float").
Proof.
  intros Hn Hodd. assert (0 < 2 ^ 1024) by done.
  unfold is_prime.
  rewrite (proj2 (Z.ltb_ge _ _)) by lia.
  rewrite (proj2 (Z.eqb_neq _ _)) by lia.
  rewrite (proj2 (Z.eqb_neq _ _)) by lia.
  unfold Float.math_sqrt. by rewrite of_int_overflow.
Qed.

(** What [is_prime] answers [True] on, whatever the size of the number. *)
Lemma is_prime_true_shape n :
  is_prime n = Return true -> n = 2 \/ (3 <= n /\ n mod 2 = 1).
Proof.
  unfold is_prime.
  destruct (n <? 2) eqn:H2; [discriminate|apply Z.ltb_ge in H2].
  destruct (n =? 2) eqn:He; [apply Z.eqb_eq in He; auto|apply Z.eqb_neq in He].
  destruct (n mod 2 =? 0) eqn:Hm; [discriminate|apply Z.eqb_neq in Hm].
  intros _. right. pose proof (Z.mod_pos_bound n 2). lia.
Qed.

Lemma collect_primes_sound (nums acc l : list Z) :
  collect_primes acc nums = Return l ->
  exists found,
    l = acc ++ found /\
    found `sublist_of` nums /\
    (forall x, x ∈ found <-> x ∈ nums /\ is_prime x = Return true).
Proof.
  revert acc. induction nums as [|num rest IH]; intros acc; cbn [collect_primes].
  - intros [= <-]. exists []. rewrite app_nil_r. split_and!; [done|done|].
    intros x. split; [intros H; by apply elem_of_nil in H|intros [H _]; by apply elem_of_nil in H].
  - destruct (is_prime num) as [b|e] eqn:Hb; [|discriminate].
    cbn [mbind outcome_bind]. intros Hrest.
    destruct (IH _ Hrest) as (found & -> & Hsub & Hfound). destruct b.
    + exists (num :: found). rewrite <- app_assoc. split_and!; [done|by constructor|].
      intros x. rewrite !elem_of_cons, Hfound. split.
      * intros [->|[? ?]]; [by split; [left|]|by split; [right|]].
      * intros [[->|?] ?]; [by left|by right].
    + exists found. split_and!; [done|by constructor|].
      intros x. rewrite elem_of_cons, Hfound. split.
      * intros [? ?]. by split; [right|].
      * intros [[->|?] Hx]; [congruence|done].
Qed.

(** X2: below 2^53 the nested [is_prime] never raises: it returns [True] on
    the primes and [False] on every other integer. *)
Theorem is_prime_decides n :
  n < 2 ^ 53 ->
  (Z.prime n -> is_prime n = Return true) /\
  (~ Z.prime n -> is_prime n = Return false).
Proof.
  intros Hn. destruct (is_prime_spec n Hn) as (b & -> & Hb). split; intros H.
  - f_equal. by apply Hb.
  - destruct b; [|done]. destruct H. by apply Hb.
Qed.

Lemma is_prime_decides_witness :
  (Z.prime 97 -> is_prime 97 = Return true) /\
  (~ Z.prime 97 -> is_prime 97 = Return false).
Proof. apply (is_prime_decides 97). reflexivity. Defined.

(** X3: on an integer of at most 53 bits the bound [int(math.sqrt(n))] of
    the trial division loop is never too small, every [i] with [i * i <= n]
    is at most the bound, and it is at most one too large. *)
Theorem loop_bound_covers_divisors n :
  1 <= n < 2 ^ 53 ->
  exists k, (r ← Float.math_sqrt n; Float.to_int r) = Return k /\
    (forall i, 0 <= i -> i * i <= n -> i <= k) /\
    (k - 1) * (k - 1) <= n.
Proof.
  intros Hn. destruct (int_math_sqrt_bounds n Hn) as (k & Hk & Hbounds).
  exists k. split; [done|].
  pose proof (Z.sqrt_spec n ltac:(lia)) as Hs.
  pose proof (Z.sqrt_nonneg n) as H0.
  remember (Z.sqrt n) as s. unfold Z.succ in Hs. split.
  - intros i Hi Hii. assert (i < s + 1) by nia. lia.
  - assert (1 <= s) by nia. assert (0 <= k - 1 <= s) by lia. nia.
Qed.

Lemma loop_bound_covers_divisors_witness :
  exists k, (r ← Float.math_sqrt 10; Float.to_int r) = Return k /\
    (forall i, 0 <= i -> i * i <= 10 -> i <= k) /\
    (k - 1) * (k - 1) <= 10.
Proof. apply (loop_bound_covers_divisors 10). split; [lia|reflexivity]. Defined.

(** X4: whatever the size of the range, a record that [find_primes_in_range]
    returns is consistent: [count] is the number of entries of [primes],
    which are in increasing order, lie in the range, are 2 or odd, and below
    2^53 are exactly the primes of the range. *)
Theorem find_primes_in_range_returned elapsed start end_ d :
  find_primes_in_range elapsed start end_ = Return d ->
  exists primes,
    d = [ ("primes", VList (map VInt primes));
          ("count", VInt (Z.of_nat (length primes)));
          ("range", VStr (pretty start +:+ "-" +:+ pretty end_));
          ("execution_time", VFloat elapsed) ] /\
    StronglySorted Z.lt primes /\
    (forall p, p ∈ primes -> start <= p <= end_ /\ (p = 2 \/ (3 <= p /\ p mod 2 = 1))) /\
    (forall p, p < 2 ^ 53 -> (p ∈ primes <-> Z.prime p /\ start <= p <= end_)).
Proof.
  unfold find_primes_in_range.
  destruct (collect_primes [] (range start (end_ + 1))) as [primes|e] eqn:Hc;
    [|discriminate].
  cbn [mbind outcome_bind]. intros [= <-].
  destruct (collect_primes_sound _ _ _ Hc) as (found & Hl & Hsub & Hfound).
  cbn [app] in Hl. subst found. exists primes. split_and!; [done| | |].
  - eapply StronglySorted_sublist; [exact Hsub|apply StronglySorted_range].
  - intros p [Hp Hprime]%Hfound. apply elem_of_range in Hp.
    split; [lia|by apply is_prime_true_shape].
  - intros p Hp. rewrite Hfound, elem_of_range.
    destruct (is_prime_spec p Hp) as (b & Hb & Hprime). rewrite Hb. split.
    + intros [? [= ->]]. split; [by apply Hprime|lia].
    + intros [? ?]. split; [lia|]. f_equal. by apply Hprime.
Qed.

Lemma find_primes_in_range_returned_witness :
  exists primes,
    [ ("primes", VList [VInt 2; VInt 3; VInt 5; VInt 7]);
      ("count", VInt 4);
      ("range", VStr "1-10");
      ("execution_time", VFloat (S754_zero false)) ] =
    [ ("primes", VList (map VInt primes));
      ("count", VInt (Z.of_nat (length primes)));
      ("range", VStr (pretty 1 +:+ "-" +:+ pretty 10));
      ("execution_time", VFloat (S754_zero false)) ] /\
    StronglySorted Z.lt primes /\
    (forall p, p ∈ primes -> 1 <= p <= 10 /\ (p = 2 \/ (3 <= p /\ p mod 2 = 1))) /\
    (forall p, p < 2 ^ 53 -> (p ∈ primes <-> Z.prime p /\ 1 <= p <= 10)).
Proof.
  apply (find_primes_in_range_returned (S754_zero false) 1 10). vm_compute. reflexivity.
Defined.



(** X6: from 2^1024 on, every range that holds an odd number makes the call
    raise [OverflowError]: the first odd number of the range has no double. *)
Theorem find_primes_in_range_overflow_range elapsed start end_ :
  2 ^ 1024 <= start -> start <= end_ ->
  start mod 2 = 1 \/ start < end_ ->
  find_primes_in_range elapsed start end_ =
    Raise (OverflowError "int too large to convert to float").
Proof.
  intros Hstart Hle Hodd. assert (0 < 2 ^ 1024) by done.
  unfold find_primes_in_range.
  rewrite range_cons by lia. cbn [collect_primes].
  assert (start mod 2 = 1 \/ start mod 2 = 0) as [H1|H0]
    by (pose proof (Z.mod_pos_bound start 2); lia).
  - by rewrite is_prime_overflow.
  - rewrite is_prime_even by lia. cbn [mbind outcome_bind].
    rewrite range_cons by lia. cbn [collect_primes].
    rewrite is_prime_overflow; [done|lia|].
    revert H0. Z.to_euclidean_division_equations. lia.
Qed.

Lemma find_primes_in_range_overflow_range_witness :
  find_primes_in_range (S754_zero false) (2 ^ 1024) (2 ^ 1024 + 1) =
    Raise (OverflowError "int too large to convert to float").
Proof.
  apply (find_primes_in_range_overflow_range (S754_zero false) (2 ^ 1024) (2 ^ 1024 + 1)).
  - apply Z.le_refl.
  - apply Z.le_succ_diag_r.
  - right. apply Z.lt_succ_diag_r.
Defined.

End PrimeSearchEdges.

(** ** Fibonacci on every integer *)

Section FibonacciEdges.


End FibonacciEdges.

(** ** The weather loop *)

Section WeatherLoop.

Import Tasks.

Lemma weather_iteration_result network key st city :
  weather_iteration network key st city =
    match city_result network key city with
    | inl w => mkWeatherLoop (cities_data st ++ [w]) (failed_cities st)
                 (sent st ++ [city_request key city])
    | inr f => mkWeatherLoop (cities_data st) (failed_cities st ++ [f])
                 (sent st ++ [city_request key city])
    end.
Proof.
  unfold weather_iteration, city_result, city_request.
  destruct (network _) as [response|e]; cbn; [|done].
  destruct (status response =? 200); cbn; [|done].
  destruct (json response) as [data|e]; cbn; [|done].
  by destruct (city_weather data) as [w|e].
Qed.

Lemma weather_loop_result network key (l : list string) st :
  fold_left (weather_iteration network key) l st =
    mkWeatherLoop
      (cities_data st ++ lefts (map (city_result network key) l))
      (failed_cities st ++ rights (map (city_result network key) l))
      (sent st ++ map (city_request key) l).
Proof.
  revert st. induction l as [|city l IH]; intros st; cbn [fold_left map].
  - unfold lefts, rights. cbn. rewrite !app_nil_r. by destruct st.
  - rewrite IH, weather_iteration_result. unfold lefts, rights. cbn [omap].
    destruct (city_result network key city) as [w|f]; cbn; by rewrite <- !app_assoc.
Qed.

Lemma length_lefts_rights {A B} (l : list (A + B)) :
  (length (lefts l) + length (rights l) = length l)%nat.
Proof.
  induction l as [|[a|b] l IH]; unfold lefts, rights in *; cbn; lia.
Qed.

(** X8: the record has an [error] key exactly when the API key is unset or
    empty, and then nothing is sent. *)
Theorem fetch_weather_error_key (environ : Environ) network elapsed :
  let r := fetch_weather_for_cities environ network elapsed in
  (is_Some (dict_get (fst r) "error") <->
   environ !! "OPENWEATHER_API_KEY" = None \/
   environ !! "OPENWEATHER_API_KEY" = Some "") /\
  (is_Some (dict_get (fst r) "error") -> r = (missing_key_record, [])).
Proof.
  cbn zeta. unfold fetch_weather_for_cities, getenv.
  destruct (environ !! "OPENWEATHER_API_KEY") as [k|] eqn:Hk; cbn [truthy_str negb].
  - destruct (String.eqb_spec k "") as [->|Hne]; cbn [negb fst].
    + split; [|done]. split; [auto|]. intros _. cbn. eauto.
    + split.
      * split; [intros [v Hv]; cbn in Hv; discriminate|intros [?|[= ?]]; done].
      * intros [v Hv]. cbn in Hv. discriminate.
  - cbn [fst]. split; [|done]. split; [auto|]. intros _. cbn. eauto.
Qed.

(** X9: with a key, one request per city is sent, in the order of the list,
    each with the key and metric units, whatever the answers are; every
    city ends either in [cities_data] or in [failed_requests], in order, and
    the counts add up. *)
Theorem fetch_weather_with_key (environ : Environ) network elapsed key :
  environ !! "OPENWEATHER_API_KEY" = Some key -> key <> "" ->
  let results := map (city_result network key) cities in
  fetch_weather_for_cities environ network elapsed =
    ([ ("cities_data", VList (map VDict (lefts results)));
       ("successful_requests", VInt (Z.of_nat (length (lefts results))));
       ("failed_requests", VList (map VStr (rights results)));
       ("total_cities_attempted", VInt 15);
       ("execution_time", VFloat elapsed) ],
     map (city_request key) cities) /\
  (length (lefts results) + length (rights results) = 15)%nat.
Proof.
  intros Hk Hne results. split.
  - unfold fetch_weather_for_cities, getenv. rewrite Hk. cbn [truthy_str default].
    rewrite (proj2 (String.eqb_neq _ _) Hne). cbn [negb].
    by rewrite weather_loop_result.
  - subst results. by rewrite length_lefts_rights, length_map.
Qed.

Lemma fetch_weather_with_key_witness :
  let environ : Environ := {[ "OPENWEATHER_API_KEY" := "k" ]} in
  let network := Core.network quiet_world in
  let results := map (city_result network "k") cities in
  fetch_weather_for_cities environ network (S754_zero false) =
    ([ ("cities_data", VList (map VDict (lefts results)));
       ("successful_requests", VInt (Z.of_nat (length (lefts results))));
       ("failed_requests", VList (map VStr (rights results)));
       ("total_cities_attempted", VInt 15);
       ("execution_time", VFloat (S754_zero false)) ],
     map (city_request "k") cities) /\
  (length (lefts results) + length (rights results) = 15)%nat.
Proof.
  apply (fetch_weather_with_key {[ "OPENWEATHER_API_KEY" := "k" ]}
           (Core.network quiet_world) (S754_zero false) "k").
  - reflexivity.
  - discriminate.
Defined.

End WeatherLoop.

(** ** The status handler and exceptions *)

Section Contains.



End Contains.

Section StatusErrors.

Lemma get_task_status_with_fetch task_id b :
  Main.get_task_status task_id b = MainWith.get_task_status_with Rq.Job_fetch task_id b.
Proof. reflexivity. Qed.


End StatusErrors.

(** ** The API tester *)

Section Tester.

Import ApiTester.

Lemma wait_cons poll rest :
  wait_for_task_completion (poll :: rest) =
    match wait_round poll with
    | Raise _ => None
    | Return (Some data) => Some data
    | Return None => wait_for_task_completion rest
    end.
Proof. reflexivity. Qed.

(** X11: what [wait_for_task_completion] returns is the body of a 200 answer
    whose status is completed or failed, no poll before it raised, failed
    to decode or was such an answer, and it is the first one. *)
Theorem wait_returns_terminal polls data :
  wait_for_task_completion polls = Some data ->
  exists before after,
    polls = before ++ Return (mkAnswer 200 (Return data)) :: after /\
    (exists d, data = VDict d /\
       (dict_get d "status" = Some (VStr "completed") \/
        dict_get d "status" = Some (VStr "failed"))) /\
    Forall (fun poll => wait_round poll = Return None) before.
Proof.
  induction polls as [|poll rest IH]; [discriminate|].
  rewrite wait_cons. destruct (wait_round poll) as [[found|]|e] eqn:Hround; [| |discriminate].
  - intros [= ->]. exists [], rest. split_and!; [| |constructor].
    + unfold wait_round in Hround. destruct poll as [[code body]|e]; [|discriminate].
      cbn in Hround. destruct (code =? 200) eqn:Hcode; [|discriminate].
      apply Z.eqb_eq in Hcode as ->.
      destruct body as [data'|e]; [|discriminate]. cbn in Hround.
      destruct (get data' "status") as [st|e]; [|discriminate]. cbn in Hround.
      destruct (in_completed_failed st); [|discriminate]. by injection Hround as ->.
    + unfold wait_round in Hround. destruct poll as [[code body]|e]; [|discriminate].
      cbn in Hround. destruct (code =? 200); [|discriminate].
      destruct body as [data'|e]; [|discriminate]. cbn in Hround.
      destruct data' as [| | | | | |d]; try discriminate. cbn in Hround.
      destruct (dict_get d "status") as [st|] eqn:Hst; cbn in Hround; [|discriminate].
      destruct st as [| | | |s| |]; try discriminate. cbn in Hround.
      destruct (String.eqb_spec s "completed") as [->|_];
        [injection Hround as <-; eauto|].
      destruct (String.eqb_spec s "failed") as [->|_];
        [injection Hround as <-; eauto|discriminate].
  - intros (before & after & -> & Hdata & Hbefore)%IH.
    exists (poll :: before), after. split_and!; [done|done|by constructor].
Qed.

Lemma wait_returns_terminal_witness :
  let data := VDict [("task_id", VStr "a"); ("status", VStr "completed");
                     ("result", VNone); ("error", VNone)] in
  let polls := [ Return (mkAnswer 404 (Return (VDict [("detail", VStr "Task not found")])));
                 Return (mkAnswer 200 (Return (VDict [("status", VStr "started")])));
                 Return (mkAnswer 200 (Return data));
                 Raise (mkException "ConnectionError" "refused") ] in
  exists before after,
    polls = before ++ Return (mkAnswer 200 (Return data)) :: after /\
    (exists d, data = VDict d /\
       (dict_get d "status" = Some (VStr "completed") \/
        dict_get d "status" = Some (VStr "failed"))) /\
    Forall (fun poll => wait_round poll = Return None) before.
Proof.
  apply (wait_returns_terminal
           [ Return (mkAnswer 404 (Return (VDict [("detail", VStr "Task not found")])));
             Return (mkAnswer 200 (Return (VDict [("status", VStr "started")])));
             Return (mkAnswer 200 (Return (VDict [("task_id", VStr "a"); ("status", VStr "completed");
                                                  ("result", VNone); ("error", VNone)])));
             Raise (mkException "ConnectionError" "refused") ]).
  reflexivity.
Defined.

Lemma wait_round_status_body (r : TaskStatusResponse.t) :
  wait_round (Return (mkAnswer 200 (Return (status_body r)))) =
    Return (if in_completed_failed (VStr (TaskStatusResponse.status r))
            then Some (status_body r) else None).
Proof. reflexivity. Qed.

Lemma in_completed_failed_project task_id job :
  in_completed_failed (VStr (TaskStatusResponse.status (Main.project task_id job))) =
    Rq.is_finished job || Rq.is_failed job.
Proof.
  destruct (project_cases task_id job)
    as [(H1 & ->)|[(H1 & H2 & ->)|[(H1 & H2 & H3 & ->)|[(H1 & H2 & H3 & H4 & ->)|(H1 & H2 & H3 & H4 & ->)]]]];
    rewrite H1, ?H2; reflexivity.
Qed.

(** X12: polling the status endpoint for a job, the wait ends at the first poll
    that finds the job finished or failed and returns that body; when no
    poll does (the job is queued, started or in no known state until the
    time is up), it returns [None]. *)
Theorem wait_on_status_endpoint task_id (jobs : list Rq.Job) :
  wait_for_task_completion (map (poll_of task_id) jobs) =
    (fun job => status_body (Main.project task_id job)) <$>
      List.find (fun job => Rq.is_finished job || Rq.is_failed job) jobs.
Proof.
  induction jobs as [|job jobs IH]; [done|].
  cbn [map List.find]. rewrite wait_cons. unfold poll_of at 1.
  rewrite wait_round_status_body, in_completed_failed_project.
  by destruct (Rq.is_finished job || Rq.is_failed job).
Qed.

Lemma all_passed_count (outcomes : list (string * bool)) :
  length (filter (fun o => o.2 = true) outcomes) = length outcomes <->
  Forall (fun o => o.2 = true) outcomes.
Proof.
  induction outcomes as [|o outcomes IH]; [done|].
  rewrite filter_cons, Forall_cons. destruct (decide (o.2 = true)) as [Ho|Ho]; cbn [length].
  - rewrite <- IH. split; [intros [= ?]; done|intros [_ ->]; done].
  - pose proof (length_filter (fun o : string * bool => o.2 = true) outcomes).
    split; [lia|tauto].
Qed.

(** X13: after any sequence of [record_test] calls on a fresh tester the two
    counters are the numbers of passed and failed tests, they add up to the
    length of [test_results], which lists the calls in order, and
    [print_summary] returns [True] exactly when every test passed. *)
Theorem record_test_counts (outcomes : list (string * bool)) :
  let t := record_all init outcomes in
  test_results t = outcomes /\
  tests_passed t = count_passed outcomes /\
  tests_passed t + tests_failed t = Z.of_nat (length outcomes) /\
  (print_summary t = true <-> Forall (fun o => o.2 = true) outcomes).
Proof.
  assert (forall t,
            test_results (record_all t outcomes) = test_results t ++ outcomes /\
            tests_passed (record_all t outcomes) = tests_passed t + count_passed outcomes /\
            tests_failed (record_all t outcomes) =
              tests_failed t + (Z.of_nat (length outcomes) - count_passed outcomes)) as Hgen.
  { induction outcomes as [|[name passed] outcomes IH]; intros t.
    - cbn. rewrite app_nil_r. unfold count_passed. cbn. split_and!; [done|lia|lia].
    - change (record_all t ((name, passed) :: outcomes))
        with (record_all (record_test t name passed) outcomes).
      destruct (IH (record_test t name passed)) as (-> & -> & ->).
      unfold count_passed. rewrite filter_cons. cbn [fst snd length].
      destruct passed; cbn [record_test test_results tests_passed tests_failed].
      + rewrite decide_True by done. cbn [length]. rewrite <- app_assoc.
        split_and!; [done|lia|lia].
      + rewrite decide_False by done. rewrite <- app_assoc.
        split_and!; [done|lia|lia]. }
  cbn zeta. destruct (Hgen init) as (Hr & Hp & Hf). cbn in Hr, Hp, Hf.
  split_and!; [done|lia|lia|].
  unfold print_summary. rewrite Hf, Z.eqb_eq, <- all_passed_count.
  unfold count_passed. lia.
Qed.

End Tester.
